(** * The Banglish to Bengali converter of [src/utils/banglishConverter.ts]

    A shallow embedding of the transliteration engine
    ([convertBanglishToBengali], [convertWord] and their tables) and the
    properties its specification states about it.

    JavaScript strings are sequences of UTF-16 code units; every index,
    [length], [charAt] and [substring] of the source counts code units,
    so a string is a [list N] here.  The literals of the source are written
    as UTF-8 string literals and decoded by [js]. *)

From Stdlib Require Import String Ascii NArith Arith Bool List Lia.
Import ListNotations.

(** ** The fragment of the JavaScript runtime the converter uses *)

Module JS.

Definition jsstring := list N.

Definition jsstring_eq_dec : forall a b : jsstring, {a = b} + {a <> b} :=
  list_eq_dec N.eq_dec.

(** UTF-8 bytes of a literal to UTF-16 code units.  Every literal of the
    source lies in the Basic Multilingual Plane (one to three bytes per
    character), where a code point is one code unit. *)
Fixpoint utf16 (bs : list N) : jsstring :=
  match bs with
  | [] => []
  | b0 :: rest =>
      if (b0 <? 0x80)%N then b0 :: utf16 rest
      else if (b0 <? 0xE0)%N then
        match rest with
        | b1 :: rest' =>
            N.lor (N.shiftl (N.land b0 0x1F) 6) (N.land b1 0x3F) :: utf16 rest'
        | [] => []
        end
      else
        match rest with
        | b1 :: b2 :: rest' =>
            N.lor (N.shiftl (N.land b0 0x0F) 12)
                  (N.lor (N.shiftl (N.land b1 0x3F) 6) (N.land b2 0x3F))
              :: utf16 rest'
        | _ => []
        end
  end.

Definition js (s : string) : jsstring :=
  utf16 (map N_of_ascii (list_ascii_of_string s)).

(** [s.length === 0], the test behind [!s] and [s === ''] on a string. *)
Definition isEmpty (s : jsstring) : bool :=
  match s with [] => true | _ :: _ => false end.

(** [s.charAt(i)]: the one-unit string at [i], or the empty string when
    [i] is out of range. *)
Definition charAt (s : jsstring) (i : nat) : jsstring :=
  match nth_error s i with Some c => [c] | None => [] end.

(** [s.substring(a, b)] for [a <= b]; both ends are clamped to the length. *)
Definition substring (s : jsstring) (a b : nat) : jsstring :=
  firstn (b - a) (skipn a s).

(** [s.toLowerCase()].  The converter uses the lower-cased word only as a
    property name looked up in [commonWords], whose own and inherited
    property names are all ASCII.  The code points whose Unicode lower-case
    mapping contains an ASCII letter are A-Z, U+212A (KELVIN SIGN, to k) and
    U+0130 (to i followed by U+0307); these are mapped as Unicode maps them.
    Every other code unit lower-cases to non-ASCII units, so leaving it in
    place does not change whether the lower-cased word is such a name. *)
Definition lowerUnit (c : N) : jsstring :=
  if ((65 <=? c) && (c <=? 90))%N then [(c + 32)%N]
  else if (c =? 0x212A)%N then [107%N]
  else if (c =? 0x130)%N then [105%N; 0x307%N]
  else [c].

Definition toLowerCase (s : jsstring) : jsstring := flat_map lowerUnit s.

(** The values a property read of a table can produce: a string (an own
    property of the literal), or what the object literal inherits from
    [Object.prototype]: built-in functions, and [Object.prototype] itself
    through the [__proto__] accessor.  [undefined] is [None]. *)
Inductive value : Type :=
| VString (s : jsstring)
| VFunction (name : jsstring)
| VObjectPrototype.

(** An object literal whose properties are all strings. *)
Definition ConversionMap := list (jsstring * jsstring).

Fixpoint own (o : ConversionMap) (k : jsstring) : option jsstring :=
  match o with
  | [] => None
  | (k', v) :: o' => if jsstring_eq_dec k k' then Some v else own o' k
  end.

(** The properties of [Object.prototype]. *)
Definition prototypeFunctions : list jsstring :=
  map js ["hasOwnProperty"; "isPrototypeOf"; "propertyIsEnumerable";
          "toLocaleString"; "toString"; "valueOf";
          "__defineGetter__"; "__defineSetter__";
          "__lookupGetter__"; "__lookupSetter__"]%string.

Definition inherited (k : jsstring) : option value :=
  if jsstring_eq_dec k (js "constructor") then Some (VFunction (js "Object"))
  else if jsstring_eq_dec k (js "__proto__") then Some VObjectPrototype
  else if in_dec jsstring_eq_dec k prototypeFunctions then Some (VFunction k)
  else None.

(** [o[k]]: the own property, else the one found on the prototype chain. *)
Definition get (o : ConversionMap) (k : jsstring) : option value :=
  match own o k with
  | Some s => Some (VString s)
  | None => inherited k
  end.

(** Truthiness of a defined value: only the empty string is falsy. *)
Definition ToBoolean (v : value) : bool :=
  match v with
  | VString s => negb (isEmpty s)
  | _ => true
  end.

(** Conversion to a string, as [+=] and [Array.prototype.join] perform it.
    A built-in function prints as V8 and JavaScriptCore print it. *)
Definition ToString (v : value) : jsstring :=
  match v with
  | VString s => s
  | VFunction name => js "function " ++ name ++ js "() { [native code] }"
  | VObjectPrototype => js "[object Object]"
  end.

(** [if (o[k]) ... o[k] ...]: the property as a string when it is truthy. *)
Definition hit (o : ConversionMap) (k : jsstring) : option jsstring :=
  match get o k with
  | Some v => if ToBoolean v then Some (ToString v) else None
  | None => None
  end.

(** [a || b] where [a] is a property read and [b] a string. *)
Definition orElse (a : option jsstring) (b : jsstring) : jsstring :=
  match a with Some s => s | None => b end.

(** [s.split(' ')]: the fields between single spaces; never empty. *)
Fixpoint split (s : jsstring) : list jsstring :=
  match s with
  | [] => [[]]
  | c :: s' =>
      if (c =? 32)%N then [] :: split s'
      else match split s' with
           | w :: ws => (c :: w) :: ws
           | [] => [[c]]
           end
  end.

(** [a.join(' ')] on an array of defined values. *)
Fixpoint join (a : list value) : jsstring :=
  match a with
  | [] => []
  | [v] => ToString v
  | v :: a' => ToString v ++ 32%N :: join a'
  end.

End JS.

Import JS.

(** ** The tables *)

Definition table (l : list (string * string)) : ConversionMap :=
  map (fun kv => (js (fst kv), js (snd kv))) l.

Definition consonants : ConversionMap := table [
  ("kh", "খ"); ("gh", "ঘ"); ("ng", "ং"); ("ch", "চ"); ("chh", "ছ");
  ("jh", "ঝ"); ("nh", "ঞ"); ("th", "থ"); ("dh", "ধ"); ("ph", "ফ");
  ("bh", "ভ"); ("sh", "শ"); ("Sh", "ষ"); ("rh", "ঢ়"); ("Rh", "ঢ়");
  ("k", "ক"); ("g", "গ"); ("c", "চ"); ("j", "জ"); ("t", "ত");
  ("d", "দ"); ("n", "ন"); ("p", "প"); ("b", "ব"); ("m", "ম");
  ("y", "য"); ("r", "র"); ("l", "ল"); ("w", "ও"); ("v", "ভ");
  ("s", "স"); ("h", "হ"); ("R", "ড়"); ("Y", "য়"); ("q", "ক");
  ("f", "ফ"); ("z", "য"); ("x", "ক্স"); ("T", "ট"); ("D", "ড");
  ("N", "ণ")
]%string.

Definition vowels : ConversionMap := table [
  ("a", "া"); ("aa", "া"); ("i", "ি"); ("ii", "ী"); ("u", "ু");
  ("uu", "ূ"); ("e", "ে"); ("ee", "ী"); ("oi", "ৈ"); ("o", "ো");
  ("oo", "ু"); ("ou", "ৌ"); ("A", "া")
]%string.

Definition independentVowels : ConversionMap := table [
  ("a", "অ"); ("aa", "আ"); ("i", "ই"); ("ii", "ঈ"); ("u", "উ");
  ("uu", "ঊ"); ("e", "এ"); ("oi", "ঐ"); ("o", "ও"); ("ou", "ঔ");
  ("ri", "ঋ"); ("A", "আ")
]%string.

Definition kars : list jsstring :=
  map js ["া"; "ি"; "ী"; "ু"; "ূ"; "ৃ"; "ে"; "ৈ"; "ো"; "ৌ"]%string.

(** [kars.has(s)] *)
Definition kars_has (s : jsstring) : bool :=
  if in_dec jsstring_eq_dec s kars then true else false.

Definition numbers : ConversionMap := table [
  ("0", "০"); ("1", "১"); ("2", "২"); ("3", "৩"); ("4", "৪");
  ("5", "৫"); ("6", "৬"); ("7", "৭"); ("8", "৮"); ("9", "৯")
]%string.

Definition commonWords : ConversionMap := table [
  ("ami", "আমি");
  ("tumi", "তুমি");
  ("apni", "আপনি");
  ("tini", "তিনি");
  ("amra", "আমরা");
  ("tomra", "তোমরা");
  ("apnara", "আপনারা");
  ("tara", "তারা");
  ("ki", "কি");
  ("keno", "কেন");
  ("kothai", "কোথায়");
  ("kokhon", "কখন");
  ("kibhabe", "কিভাবে");
  ("eto", "এত");
  ("oto", "ওত");
  ("ei", "এই");
  ("oi", "ওই");
  ("hae", "হ্যাঁ");
  ("na", "না");
  ("nai", "নাই");
  ("ache", "আছে");
  ("chhilo", "ছিল");
  ("hobe", "হবে");
  ("kora", "করা");
  ("kore", "করে");
  ("korechhi", "করেছি");
  ("korbo", "করব");
  ("ekta", "একটা");
  ("ekti", "একটি");
  ("khaoa", "খাওয়া");
  ("ghum", "ঘুম");
  ("bhat", "ভাত");
  ("pani", "পানি");
  ("jol", "জল");
  ("dhonnobad", "ধন্যবাদ");
  ("shukriya", "শুক্রিয়া");
  ("valo", "ভালো");
  ("bhalo", "ভালো");
  ("kharap", "খারাপ");
  ("sundor", "সুন্দর");
  ("amar", "আমার");
  ("tomar", "তোমার");
  ("tar", "তার");
  ("jodi", "যদি");
  ("tahole", "তাহলে");
  ("kintu", "কিন্তু");
  ("ebong", "এবং");
  ("ba", "বা");
  ("theke", "থেকে")
]%string.

(** ** The character engine *)

(** The variables of the scan loop of [convertWord]: [(result, i)]. *)
Definition state : Type := jsstring * nat.

(** One iteration of the [while] loop of [convertWord] (taken when
    [i < word.length]).  The flag [matched] of the source is [false]
    whenever it is read, each assignment to it being followed by
    [continue]; it is left out. *)
Definition step (word : jsstring) (st : state) : state :=
  let '(result, i) := st in
  let three := substring word i (i + 3) in
  let two := substring word i (i + 2) in
  let single := charAt word i in
  match (if i + 2 <? length word then hit consonants three else None) with
  | Some glyph => (result ++ glyph, i + 3)
  | None =>
  match (if i + 1 <? length word then hit consonants two else None) with
  | Some glyph => (result ++ glyph, i + 2)
  | None =>
  match (if i + 1 <? length word then hit vowels two else None) with
  | Some kar =>
      if isEmpty result || (i =? 0)
      then (result ++ orElse (hit independentVowels two)
                        (orElse (hit independentVowels (charAt two 0)) two),
            i + 2)
      else (result ++ kar, i + 2)
  | None =>
  match hit numbers single with
  | Some digit => (result ++ digit, i + 1)
  | None =>
  match hit consonants single with
  | Some glyph => (result ++ glyph, i + 1)
  | None =>
  match hit vowels single with
  | Some kar =>
      if isEmpty result || (i =? 0)
      then (result ++ orElse (hit independentVowels single) single, i + 1)
      else
        let lastChar := charAt result (length result - 1) in
        if negb (kars_has lastChar) then (result ++ kar, i + 1)
        else (result ++ single, i + 1)
  | None => (result ++ single, i + 1)
  end end end end end end.

(** The [while (i < word.length)] loop, as the relation between the state
    on entry and the value of [result] on exit. *)
Inductive while (word : jsstring) : state -> jsstring -> Prop :=
| while_exit : forall st,
    ~ snd st < length word -> while word st (fst st)
| while_iter : forall st r,
    snd st < length word -> while word (step word st) r -> while word st r.

(** The same loop run for at most [fuel] iterations. *)
Fixpoint loop (fuel : nat) (word : jsstring) (st : state) : state :=
  match fuel with
  | O => st
  | S fuel' =>
      if snd st <? length word then loop fuel' word (step word st) else st
  end.

(** Every iteration advances [i], so [word.length] iterations are enough
    (see [loop_while]). *)
Definition convertWord (word : jsstring) : jsstring :=
  if isEmpty word then []
  else fst (loop (length word) word ([], 0)).

(** ** The entry point *)

Definition convertBanglishToBengali (text : jsstring) : jsstring :=
  if isEmpty text then []
  else
    let words := split text in
    let convertedWords :=
      map (fun word =>
             let lowerWord := toLowerCase word in
             match get commonWords lowerWord with
             | Some v =>
                 if ToBoolean v then v else VString (convertWord word)
             | None => VString (convertWord word)
             end) words in
    join convertedWords.

(** ** The real-time wrapper *)

(** [createRealtimeConverter(callback, debounceMs)] returns a closure over
    the variable [timeoutId].  Its state is modelled together with what it
    touches of the host: the timers it has set and that are still pending
    (each with the text its arrow function captured), the next fresh timer
    id, and the arguments [callback] has been called with, oldest first.
    Time itself is not modelled: a pending timer may elapse at any moment,
    which covers every value of [debounceMs]. *)
Record realtime : Type := {
  timeoutId : option nat;
  nextId : nat;
  timers : list (nat * jsstring);
  delivered : list jsstring
}.

Definition createRealtimeConverter : realtime :=
  {| timeoutId := None; nextId := 0; timers := []; delivered := [] |}.

(** [clearTimeout(id)]: the timer [id], if pending, is dropped; an
    undefined or stale id does nothing. *)
Definition clearTimeout (id : option nat) (ts : list (nat * jsstring))
  : list (nat * jsstring) :=
  match id with
  | Some n => filter (fun t => negb (fst t =? n)) ts
  | None => ts
  end.

(** A call [(banglish) => ...] of the returned closure. *)
Definition invoke (banglish : jsstring) (st : realtime) : realtime :=
  let ts := clearTimeout (timeoutId st) (timers st) in
  {| timeoutId := Some (nextId st);
     nextId := S (nextId st);
     timers := ts ++ [(nextId st, banglish)];
     delivered := delivered st |}.

(** The delay of timer [id] elapses: if it is still pending, its arrow
    function runs, [callback(convertBanglishToBengali(banglish))]. *)
Definition elapse (id : nat) (st : realtime) : realtime :=
  match find (fun t => fst t =? id) (timers st) with
  | Some (_, banglish) =>
      {| timeoutId := timeoutId st;
         nextId := nextId st;
         timers := filter (fun t => negb (fst t =? id)) (timers st);
         delivered := delivered st ++ [convertBanglishToBengali banglish] |}
  | None => st
  end.

Inductive event : Type :=
| Call (banglish : jsstring)
| Elapse (id : nat).

Definition handle (st : realtime) (e : event) : realtime :=
  match e with
  | Call banglish => invoke banglish st
  | Elapse id => elapse id st
  end.

Definition run (es : list event) : realtime :=
  fold_left handle es createRealtimeConverter.

(** ** Notions used in the statements

    Executable predicates and auxiliary constants in which the properties
    below are stated. *)

(** The independent form the engine writes for a vowel pattern [k]:
    [independentVowels[k] || independentVowels[k.charAt(0)] || k]. *)
Definition independentForm (k : jsstring) : jsstring :=
  orElse (hit independentVowels k)
         (orElse (hit independentVowels (charAt k 0)) k).

(** Every string an iteration can take from a table. *)
Definition tableGlyphs : list jsstring :=
  map snd consonants ++ map snd vowels ++ map snd numbers
  ++ map independentForm (map fst vowels).

(** The glyph U+09C3 (ri-kar) is a member of [kars]; no key of [vowels]
    maps to it. *)
Definition riKar : jsstring := js "ৃ".

(** [k] is a prefix of [s]. *)
Fixpoint prefixb (k s : jsstring) : bool :=
  match k, s with
  | [], _ => true
  | a :: k', b :: s' => (a =? b)%N && prefixb k' s'
  | _ :: _, [] => false
  end.

(** The keys of the three tables the scan probes. *)
Definition engineKeys : list jsstring :=
  map fst consonants ++ map fst vowels ++ map fst numbers.

(** Some key of a probed table starts at position [i] of [word]. *)
Definition matchesAt (word : jsstring) (i : nat) : bool :=
  existsb (fun k => prefixb k (skipn i word)) engineKeys.

(** The independent vowel U+098B, the value of the key [ri] of
    [independentVowels]. *)
Definition riVowel : N := 0x98B%N.

(** What a read of an inherited property can yield. *)
Definition inheritedValues : list value :=
  VFunction (js "Object") :: VObjectPrototype
  :: map VFunction prototypeFunctions.

(** The Latin letters that are one-unit keys of the vowel table. *)
Definition isVowelLetter (c : N) : bool :=
  existsb (N.eqb c) (map N_of_ascii ["a"; "i"; "u"; "e"; "o"; "A"]%char).

(** The first unit of [k] is such a letter. *)
Definition startsWithVowelLetter (k : jsstring) : bool :=
  match k with c :: _ => isVowelLetter c | [] => false end.

(** The independent form of the pattern [p] is an entry of the
    independent-vowel table, under [p] or else (for two units) under the
    first unit of [p], and is no value of the vowel table. *)
Definition independentOK (p : jsstring) : bool :=
  let g := independentForm p in
  match own independentVowels p with
  | Some g' => if jsstring_eq_dec g g' then true else false
  | None =>
      (length p =? 2) &&
      match own independentVowels (charAt p 0) with
      | Some g' => if jsstring_eq_dec g g' then true else false
      | None => false
      end
  end
  && (if in_dec jsstring_eq_dec g (map snd vowels) then false else true).

(** The Latin letter [c]; it occurs in the keys of the probed tables only
    as a first unit. *)
Definition letter_c : N := N_of_ascii "c".

(** [k] holds no [c] after its first unit. *)
Definition c_only_first (k : jsstring) : bool :=
  negb (existsb (N.eqb letter_c) (tl k)).

(** [k] is a key (an own property name) of [commonWords]. *)
Definition isDictionaryKey (k : jsstring) : bool :=
  match own commonWords k with Some _ => true | None => false end.

(** No key of a probed table starts at any position of [w]. *)
Definition unmatchedWord (w : jsstring) : bool :=
  forallb (fun i => negb (matchesAt w i)) (seq 0 (length w)).

(** No word of [x] lower-cases to a dictionary key, and no key of a probed
    table starts anywhere in a word of [x]. *)
Definition passesThrough (x : jsstring) : bool :=
  forallb (fun w => negb (isDictionaryKey (toLowerCase w)) && unmatchedWord w)
          (split x).

(** The names [Object.prototype] defines. *)
Definition inheritedNames : list jsstring :=
  js "constructor" :: js "__proto__" :: prototypeFunctions.

(** What the dictionary stage and the engine make of one field when the
    lower-cased field is no inherited property name. *)
Definition convertField (word : jsstring) : jsstring :=
  match own commonWords (toLowerCase word) with
  | Some bengali => bengali
  | None => convertWord word
  end.

(** [s] holds no space, the separator of [split] and [join]. *)
Definition noSpace (s : jsstring) : Prop := Forall (fun c => c <> 32%N) s.

(** [u] alone is a key of a probed table. *)
Definition isUnitKey (u : N) : bool :=
  if in_dec jsstring_eq_dec [u] engineKeys then true else false.

(** [u] occurs in no key of a probed table and in no table glyph. *)
Definition inert (u : N) : bool :=
  negb (existsb (N.eqb u) (concat engineKeys ++ concat tableGlyphs)).

(** [u] occurs in no key of a probed table after the first unit. *)
Definition noKeyTail (u : N) : bool :=
  forallb (fun k => negb (existsb (N.eqb u) (tl k))) engineKeys.

(** The ASCII digits, and the Bengali digit of an ASCII digit. *)
Definition isDigit (d : N) : bool := ((48 <=? d) && (d <=? 57))%N.

Definition bengaliDigit (d : N) : N := (d - 48 + 0x9E6)%N.

Definition startsWithDigit (k : jsstring) : bool :=
  match k with d :: _ => isDigit d | [] => false end.

(** Every unit of [s] that alone is a key is a vowel letter standing
    directly behind a kar ([prev] is the unit before [s], if any). *)
Fixpoint settledFrom (prev : option N) (s : jsstring) : bool :=
  match s with
  | [] => true
  | u :: s' =>
      (if isUnitKey u
       then isVowelLetter u
            && match prev with Some p => kars_has [p] | None => false end
       else true)
      && settledFrom (Some u) s'
  end.

Definition settled (s : jsstring) : bool := settledFrom None s.

(** The last unit of [r], or [prev] when [r] is empty. *)
Definition lastUnit (prev : option N) (r : jsstring) : option N :=
  fold_left (fun _ u => Some u) r prev.

(** [u] is an ASCII unit or U+212A: the units whose lower-casing can be
    all ASCII. *)
Definition asciiOrKelvin (u : N) : bool := ((u <? 128) || (u =? 0x212A))%N.

(** [u] is neither a key by itself nor a unit of a table glyph. *)
Definition plain (u : N) : bool :=
  negb (isUnitKey u) && negb (existsb (N.eqb u) (concat tableGlyphs)).

(** The texts of the calls of a trace, in order, and of its last call. *)
Fixpoint calls (es : list event) : list jsstring :=
  match es with
  | [] => []
  | Call b :: es' => b :: calls es'
  | Elapse _ :: es' => calls es'
  end.

Definition lastCall (es : list event) : option jsstring :=
  match rev (calls es) with b :: _ => Some b | [] => None end.

(** [l] is [c] with some elements left out. *)
Inductive subseq : list jsstring -> list jsstring -> Prop :=
| subseq_nil : subseq [] []
| subseq_skip : forall l c x, subseq l c -> subseq l (x :: c)
| subseq_keep : forall l c x, subseq l c -> subseq (x :: l) (x :: c).

(** What holds of the wrapper after every trace. *)
Definition consistent (es : list event) (st : realtime) : Prop :=
  (timers st = [] \/
   exists id b, timers st = [(id, b)] /\ timeoutId st = Some id /\
                lastCall es = Some b) /\
  exists l, delivered st = map convertBanglishToBengali l /\
            subseq (l ++ map snd (timers st)) (calls es).

(** ** Sanity checks of the embedding on concrete inputs *)

Example js_kha : js "খ" = [0x996%N].
Proof. reflexivity. Qed.

Example js_rha : js "ঢ়" = [0x9A2%N; 0x9BC%N].
Proof. reflexivity. Qed.

Example convert_ami : convertBanglishToBengali (js "Ami bhat khai") = js "আমি ভাত খাi".
Proof. vm_compute. reflexivity. Qed.

(** ** Strings and property reads *)

Section Strings.

Lemma charAt_substring (s : jsstring) (i : nat) :
  charAt s i = substring s i (i + 1).
Proof.
  unfold charAt, substring.
  replace (i + 1 - i) with 1 by lia.
  revert i; induction s as [|c s IH]; intros [|i]; simpl; auto.
Qed.

Lemma substring_length (s : jsstring) (a n : nat) :
  length (substring s a (a + n)) <= n.
Proof.
  unfold substring. rewrite length_firstn. lia.
Qed.

Lemma substring_full_length (s : jsstring) (a n : nat) :
  a + n <= length s -> length (substring s a (a + n)) = n.
Proof.
  intros H. unfold substring. rewrite length_firstn, length_skipn. lia.
Qed.

Lemma charAt_length (s : jsstring) (i : nat) : length (charAt s i) <= 1.
Proof.
  unfold charAt. destruct (nth_error s i); simpl; lia.
Qed.

Lemma substring_nth (s : jsstring) (a n j : nat) :
  j < n -> nth_error (substring s a (a + n)) j = nth_error s (a + j).
Proof.
  intros H. unfold substring.
  replace (a + n - a) with n by lia.
  rewrite nth_error_firstn.
  destruct (Nat.ltb_spec j n); [|lia].
  apply nth_error_skipn.
Qed.

Lemma Forall_firstn (Q : N -> Prop) (n : nat) (s : jsstring) :
  Forall Q s -> Forall Q (firstn n s).
Proof.
  intros H. rewrite <- (firstn_skipn n s) in H.
  apply Forall_app in H. tauto.
Qed.

Lemma Forall_skipn (Q : N -> Prop) (n : nat) (s : jsstring) :
  Forall Q s -> Forall Q (skipn n s).
Proof.
  intros H. rewrite <- (firstn_skipn n s) in H.
  apply Forall_app in H. tauto.
Qed.

End Strings.

Section PropertyReads.

Lemma own_In (o : ConversionMap) (k v : jsstring) :
  own o k = Some v -> In (k, v) o.
Proof.
  induction o as [|[k' v'] o IH]; simpl; [discriminate|].
  destruct (jsstring_eq_dec k k') as [->|]; intros H.
  - injection H as ->. now left.
  - right. auto.
Qed.

Lemma own_None (o : ConversionMap) (k : jsstring) :
  own o k = None <-> ~ In k (map fst o).
Proof.
  induction o as [|[k' v'] o IH]; simpl.
  - tauto.
  - destruct (jsstring_eq_dec k k') as [->|Hne].
    + split; [discriminate|]. intros H. exfalso. apply H. now left.
    + rewrite IH. split.
      * intros H [E|I]; [congruence|tauto].
      * tauto.
Qed.

(** A property of every entry of a table, checked entry by entry, holds of
    whatever [own] returns. *)
Lemma own_forallb (p : jsstring -> jsstring -> bool) (o : ConversionMap) :
  forallb (fun kv => p (fst kv) (snd kv)) o = true ->
  forall k v, own o k = Some v -> p k v = true.
Proof.
  intros H k v E. apply own_In in E.
  rewrite forallb_forall in H. apply (H (k, v) E).
Qed.

(** Every name inherited from [Object.prototype] has seven units or more,
    so a read with a key of at most three units sees own properties only. *)
Lemma inherited_long (k : jsstring) (v : value) :
  inherited k = Some v -> 7 <= length k.
Proof.
  unfold inherited.
  destruct (jsstring_eq_dec k (js "constructor")) as [->|_];
    [intros _; vm_compute; lia|].
  destruct (jsstring_eq_dec k (js "__proto__")) as [->|_];
    [intros _; vm_compute; lia|].
  destruct (in_dec jsstring_eq_dec k prototypeFunctions) as [I|_];
    [|discriminate].
  intros _. revert I.
  assert (F : Forall (fun n : jsstring => 7 <= length n) prototypeFunctions).
  { vm_compute. repeat constructor. }
  rewrite Forall_forall in F. apply F.
Qed.

Lemma inherited_short (k : jsstring) : length k <= 3 -> inherited k = None.
Proof.
  intros H. destruct (inherited k) as [v|] eqn:E; [|reflexivity].
  apply inherited_long in E. lia.
Qed.

Lemma hit_short (o : ConversionMap) (k : jsstring) :
  length k <= 3 ->
  hit o k = match own o k with
            | Some s => if isEmpty s then None else Some s
            | None => None
            end.
Proof.
  intros H. unfold hit, get. rewrite (inherited_short _ H).
  destruct (own o k) as [s|]; simpl; [|reflexivity].
  destruct s; reflexivity.
Qed.

Lemma hit_Some_own (o : ConversionMap) (k g : jsstring) :
  length k <= 3 -> hit o k = Some g -> own o k = Some g.
Proof.
  intros H. rewrite (hit_short _ _ H).
  destruct (own o k) as [s|]; [|discriminate].
  destruct s; simpl; congruence.
Qed.

End PropertyReads.

(** ** What one iteration emits *)

Ltac step_cases :=
  unfold step;
  repeat match goal with
    | |- context [match (if ?b then _ else _) with _ => _ end] =>
        destruct b eqn:?
    | |- context [match hit ?o ?k with _ => _ end] =>
        destruct (hit o k) eqn:?
    | |- context [if ?b then _ else _] => destruct b eqn:?
    end.

Section Emission.

Variable word : jsstring.

Lemma independentForm_single (i : nat) :
  orElse (hit independentVowels (charAt word i)) (charAt word i)
  = independentForm (charAt word i).
Proof.
  unfold independentForm.
  assert (E : charAt (charAt word i) 0 = charAt word i).
  { unfold charAt. destruct (nth_error word i); reflexivity. }
  rewrite E. destruct (hit independentVowels (charAt word i)); reflexivity.
Qed.

Lemma hit_glyph_consonants (i n : nat) (g : jsstring) :
  n <= 3 -> hit consonants (substring word i (i + n)) = Some g ->
  In g tableGlyphs.
Proof.
  intros Hn H. apply hit_Some_own in H.
  - apply own_In in H. unfold tableGlyphs. apply in_or_app. left.
    apply (in_map snd) in H. exact H.
  - pose proof (substring_length word i n). lia.
Qed.

Lemma hit_key (o : ConversionMap) (i n : nat) (g : jsstring) :
  n <= 3 -> hit o (substring word i (i + n)) = Some g ->
  In (substring word i (i + n), g) o.
Proof.
  intros Hn H. apply own_In, hit_Some_own; [|exact H].
  pose proof (substring_length word i n). lia.
Qed.

Lemma in_tableGlyphs_vowels (k g : jsstring) :
  In (k, g) vowels -> In g tableGlyphs /\ In (independentForm k) tableGlyphs.
Proof.
  intros H. unfold tableGlyphs. split.
  - apply in_or_app. right. apply in_or_app. left.
    apply (in_map snd) in H. exact H.
  - do 3 (apply in_or_app; right).
    apply in_map. apply (in_map fst) in H. exact H.
Qed.

Lemma in_tableGlyphs_numbers (k g : jsstring) :
  In (k, g) numbers -> In g tableGlyphs.
Proof.
  intros H. unfold tableGlyphs.
  do 2 (apply in_or_app; right). apply in_or_app. left.
  apply (in_map snd) in H. exact H.
Qed.

(** An iteration appends one string to [result] and advances [i] by the
    number of units it consumed: a table glyph, or the units themselves. *)
Lemma step_emit (result : jsstring) (i : nat) :
  exists g n,
    step word (result, i) = (result ++ g, i + n) /\
    1 <= n <= 3 /\
    (In g tableGlyphs \/ g = substring word i (i + n)).
Proof.
  unfold step; cbv zeta.
  fold (independentForm (substring word i (i + 2))).
  rewrite (independentForm_single i), !(charAt_substring word i).
  step_cases;
    repeat match goal with
      | H : None = Some _ |- _ => discriminate H
      | H : hit consonants _ = Some _ |- _ =>
          apply hit_glyph_consonants in H; [|lia]
      | H : hit vowels (substring word i (i + ?n)) = Some _ |- _ =>
          apply (@hit_key vowels i n) in H; [|lia];
          apply in_tableGlyphs_vowels in H; destruct H
      | H : hit numbers (substring word i (i + ?n)) = Some _ |- _ =>
          apply (@hit_key numbers i n) in H; [|lia];
          apply in_tableGlyphs_numbers in H
      end;
    try (eexists _, 3; split; [reflexivity|split; [lia|now left]]);
    try (eexists _, 2; split; [reflexivity|split; [lia|now left]]);
    try (eexists _, 1; split; [reflexivity|split; [lia|now left]]);
    try (eexists _, 1; split; [reflexivity|split; [lia|now right]]).
Qed.

Lemma step_advance (st : state) :
  snd st < snd (step word st) <= snd st + 3.
Proof.
  destruct st as [result i].
  destruct (step_emit result i) as (g & n & E & Hn & _).
  rewrite E. simpl. lia.
Qed.

Lemma step_prefix (result : jsstring) (i : nat) :
  exists g, fst (step word (result, i)) = result ++ g.
Proof.
  destruct (step_emit result i) as (g & n & E & _).
  exists g. now rewrite E.
Qed.

Lemma step_Forall (Q : N -> Prop) (result : jsstring) (i : nat) :
  (forall g, In g tableGlyphs -> Forall Q g) ->
  Forall Q word -> Forall Q result ->
  Forall Q (fst (step word (result, i))).
Proof.
  intros HG HW HR.
  destruct (step_emit result i) as (g & n & E & _ & [I| ->]);
    rewrite E; simpl; apply Forall_app; split; auto.
  unfold substring. apply Forall_firstn, Forall_skipn, HW.
Qed.

End Emission.

(** ** The scan loop *)

Section Loop.

Variable word : jsstring.

Lemma loop_S (fuel : nat) (st : state) :
  loop (S fuel) word st
  = if snd st <? length word then loop fuel word (step word st) else st.
Proof. reflexivity. Qed.

Lemma loop_invariant (P : state -> Prop) :
  (forall st, snd st < length word -> P st -> P (step word st)) ->
  forall fuel st, P st -> P (loop fuel word st).
Proof.
  intros HS. induction fuel as [|fuel IH]; intros st HP; simpl; [exact HP|].
  destruct (Nat.ltb_spec (snd st) (length word)); [|exact HP].
  apply IH, HS; assumption.
Qed.

(** With fuel for the units still to scan, the bounded loop is the loop. *)
Lemma loop_while (fuel : nat) (st : state) :
  length word - snd st <= fuel -> while word st (fst (loop fuel word st)).
Proof.
  revert st. induction fuel as [|fuel IH]; intros st H; simpl.
  - apply while_exit. lia.
  - destruct (Nat.ltb_spec (snd st) (length word)) as [L|L].
    + apply while_iter; [exact L|]. apply IH.
      pose proof (step_advance word st). lia.
    + apply while_exit. lia.
Qed.

Lemma while_deterministic (st : state) (r r' : jsstring) :
  while word st r -> while word st r' -> r = r'.
Proof.
  intros H. revert r'.
  induction H as [st E|st r L _ IH]; intros r' H'.
  - destruct H' as [st _|st r' L _]; [reflexivity|contradiction].
  - destruct H' as [st E|st r' _ H']; [contradiction|]. apply IH, H'.
Qed.

Lemma while_terminates (st : state) : exists r, while word st r.
Proof.
  exists (fst (loop (length word - snd st) word st)).
  apply loop_while. lia.
Qed.

Lemma loop_prefix (fuel : nat) (result : jsstring) (i : nat) :
  exists r', fst (loop fuel word (result, i)) = result ++ r'.
Proof.
  apply (@loop_invariant (fun st => exists r', fst st = result ++ r')).
  - intros [r j] _ [r' E]. simpl in E. subst r.
    destruct (step_prefix word (result ++ r') j) as [g ->].
    exists (r' ++ g). now rewrite app_assoc.
  - exists []. simpl. now rewrite app_nil_r.
Qed.

Lemma loop_Forall (Q : N -> Prop) (fuel : nat) (st : state) :
  (forall g, In g tableGlyphs -> Forall Q g) ->
  Forall Q word -> Forall Q (fst st) ->
  Forall Q (fst (loop fuel word st)).
Proof.
  intros HG HW. apply (@loop_invariant (fun st => Forall Q (fst st))).
  intros [r j] _ HR. now apply step_Forall.
Qed.

Lemma convertWord_while : while word ([], 0) (convertWord word).
Proof.
  unfold convertWord. destruct (isEmpty word) eqn:E.
  - apply (@while_exit word ([], 0)).
    destruct word; [simpl; lia|discriminate].
  - apply loop_while. simpl. lia.
Qed.

Lemma convertWord_Forall (Q : N -> Prop) :
  (forall g, In g tableGlyphs -> Forall Q g) ->
  Forall Q word -> Forall Q (convertWord word).
Proof.
  intros HG HW. unfold convertWord.
  destruct (isEmpty word); [constructor|].
  apply loop_Forall; auto.
Qed.

(** The first iteration decides how the output begins. *)
Lemma convertWord_first (g : jsstring) (n : nat) :
  word <> [] -> step word ([], 0) = (g, n) ->
  exists rest, convertWord word = g ++ rest.
Proof.
  intros Hne E. unfold convertWord.
  assert (L : 0 < length word) by (destruct word; [contradiction|simpl; lia]).
  replace (isEmpty word) with false by (destruct word; [contradiction|reflexivity]).
  destruct (length word) as [|m] eqn:Em; [lia|].
  rewrite loop_S. cbn [snd]. rewrite Em. cbn [Nat.ltb Nat.leb].
  rewrite E. apply loop_prefix.
Qed.

End Loop.

(** ** The kar set and the vowel table *)

(** C2, as stated, fails: the kar set is not the value range of the vowel
    table, since it holds the ri-kar, which no vowel pattern produces. *)
Lemma kars_not_vowel_range :
  ~ (forall g, In g kars <-> In g (map snd vowels)).
Proof.
  intros H. destruct (H riKar) as [H1 _].
  assert (I : In riKar kars) by (vm_compute; tauto).
  specialize (H1 I). vm_compute in H1.
  repeat (destruct H1 as [H1|H1]; [discriminate H1|]). exact H1.
Qed.

(** C2 (amended): every value of the vowels table is a member of the kars
    set, and every member of the kars set is a value of the vowels table
    except the ri-kar (U+09C3), which is a member and not a value. *)
Theorem kars_vowel_range :
  (forall g, In g kars <-> In g (map snd vowels) \/ g = riKar) /\
  ~ In riKar (map snd vowels).
Proof.
  split.
  - intros g. split.
    + intros H. vm_compute in H.
      repeat (destruct H as [H|H];
              [subst g; vm_compute; tauto|]).
      contradiction.
    + intros [H| ->]; [|vm_compute; tauto].
      vm_compute in H.
      repeat (destruct H as [H|H];
              [subst g; vm_compute; tauto|]).
      contradiction.
  - intros H. vm_compute in H.
    repeat (destruct H as [H|H]; [discriminate H|]). exact H.
Qed.

(** ** Termination *)

(** C9: every iteration of the scan loop of [convertWord] strictly
    increases [i], by 1, 2 or 3; hence the loop terminates from every
    state, with exactly one result, and [convertWord] returns that result
    for every word. *)
Theorem convertWord_terminates (word : jsstring) :
  (forall st, snd st < snd (step word st) <= snd st + 3) /\
  (forall st, exists r, while word st r /\
                        forall r', while word st r' -> r' = r) /\
  while word ([], 0) (convertWord word).
Proof.
  split; [|split].
  - apply step_advance.
  - intros st. destruct (while_terminates word st) as [r H].
    exists r. split; [exact H|].
    intros r' H'. apply (while_deterministic word st r' r H' H).
  - apply convertWord_while.
Qed.

(** ** Passthrough *)

Lemma prefixb_firstn (n : nat) (s : jsstring) : prefixb (firstn n s) s = true.
Proof.
  revert s. induction n as [|n IH]; intros [|c s]; simpl; auto.
  now rewrite N.eqb_refl, IH.
Qed.

Lemma unmatched_hit (word : jsstring) (i n : nat) (o : ConversionMap) :
  matchesAt word i = false ->
  incl (map fst o) engineKeys -> n <= 3 ->
  hit o (substring word i (i + n)) = None.
Proof.
  intros HM HI Hn.
  destruct (hit o (substring word i (i + n))) as [g|] eqn:E; [|reflexivity].
  apply hit_key in E; [|exact Hn].
  apply (in_map fst) in E. apply HI in E. simpl in E.
  assert (X : matchesAt word i = true).
  { unfold matchesAt. apply existsb_exists.
    exists (substring word i (i + n)). split; [exact E|].
    unfold substring. apply prefixb_firstn. }
  congruence.
Qed.

Lemma engineKeys_consonants : incl (map fst consonants) engineKeys.
Proof. unfold engineKeys. apply incl_appl, incl_refl. Qed.

Lemma engineKeys_vowels : incl (map fst vowels) engineKeys.
Proof. unfold engineKeys. apply incl_appr, incl_appl, incl_refl. Qed.

Lemma engineKeys_numbers : incl (map fst numbers) engineKeys.
Proof. unfold engineKeys. apply incl_appr, incl_appr, incl_refl. Qed.

(** Where no key starts, the iteration copies one unit. *)
Lemma step_unmatched (word result : jsstring) (i : nat) :
  matchesAt word i = false ->
  step word (result, i) = (result ++ charAt word i, i + 1).
Proof.
  intros HM. unfold step. cbv zeta. rewrite !(charAt_substring word i).
  rewrite (@unmatched_hit word i 3 consonants HM engineKeys_consonants) by lia.
  rewrite (@unmatched_hit word i 2 consonants HM engineKeys_consonants) by lia.
  rewrite (@unmatched_hit word i 1 consonants HM engineKeys_consonants) by lia.
  rewrite (@unmatched_hit word i 2 vowels HM engineKeys_vowels) by lia.
  rewrite (@unmatched_hit word i 1 vowels HM engineKeys_vowels) by lia.
  rewrite (@unmatched_hit word i 1 numbers HM engineKeys_numbers) by lia.
  destruct (i + 2 <? length word), (i + 1 <? length word); reflexivity.
Qed.

(** C6: the converter is total and passes unmapped units through:
    [convert("")] is the empty string; at a scan position where no key of
    the consonant, vowel or numeral table starts, the iteration appends the
    original character and advances by 1; and for every input, the scan
    loop of every word of it exits with the string [convertWord] returns,
    so that [convertBanglishToBengali] yields a string and never an error. *)
Theorem passthrough_never_fails :
  convertBanglishToBengali [] = [] /\
  (forall word result i,
      matchesAt word i = false ->
      step word (result, i) = (result ++ charAt word i, i + 1)) /\
  (forall text word,
      In word (split text) -> while word ([], 0) (convertWord word)) /\
  (forall text, exists out : jsstring, convertBanglishToBengali text = out).
Proof.
  split; [reflexivity|]. split; [|split].
  - intros word result i. apply step_unmatched.
  - intros text word _. apply convertWord_while.
  - intros text. eexists. reflexivity.
Qed.

(** C6 at ["ka!"]: the exclamation mark at position 2 is copied. *)
Lemma passthrough_never_fails_witness :
  matchesAt (js "ka!") 2 = false /\
  step (js "ka!") (js "কা", 2) = (js "কা!", 3).
Proof.
  split; [reflexivity|].
  exact (proj1 (proj2 passthrough_never_fails) (js "ka!") (js "কা") 2 eq_refl).
Defined.

(** ** The guard against stacked diacritics *)

(** C1 at the word ["kaoi"], which is no dictionary word: after [k] and
    [a] the scan stands at position 2 with [result] ending in the kar of
    [a]; the two-unit branch then appends the kar of [oi] without looking
    at the last glyph, and the output ends in two stacked kars. *)
Theorem stacking_two_unit_pattern :
  get commonWords (toLowerCase (js "kaoi")) = None /\
  loop 2 (js "kaoi") ([], 0) = (js "কা", 2) /\
  kars_has (charAt (js "কা") 1) = true /\
  step (js "kaoi") (js "কা", 2) = (js "কা" ++ js "ৈ", 4) /\
  kars_has (js "ৈ") = true /\
  convertBanglishToBengali (js "kaoi") = js "কাৈ".
Proof. repeat split; vm_compute; reflexivity. Qed.

(** ** The dictionary stage and inherited properties *)

(** C3 at the word ["constructor"]: it lower-cases to no key of the
    dictionary, yet [commonWords["constructor"]] is the inherited, truthy
    [Object] function; the character engine is not run and the output is
    the function converted to a string. *)
Theorem dictionary_inherited_constructor :
  own commonWords (toLowerCase (js "constructor")) = None /\
  get commonWords (toLowerCase (js "constructor"))
    = Some (VFunction (js "Object")) /\
  convertBanglishToBengali (js "constructor")
    = js "function Object() { [native code] }" /\
  convertWord (js "constructor") = js "চোনসতরুচতোর" /\
  convertBanglishToBengali (js "constructor") <> convertWord (js "constructor").
Proof.
  repeat split; try (vm_compute; reflexivity).
  vm_compute. discriminate.
Qed.

(** C8 at the text ["__proto__"]: one field goes in, and the inherited
    [__proto__] property, converted to the string ["[object Object]"],
    comes out as two. *)
Theorem word_count_inherited_proto :
  length (split (js "__proto__")) = 1 /\
  get commonWords (toLowerCase (js "__proto__")) = Some VObjectPrototype /\
  convertBanglishToBengali (js "__proto__") = js "[object Object]" /\
  length (split (convertBanglishToBengali (js "__proto__"))) = 2.
Proof. repeat split; vm_compute; reflexivity. Qed.

(** ** The independent vowel U+098B *)

(** C10, as stated, fails: an input that holds U+098B comes out with it,
    copied by the passthrough branch. *)
Lemma ri_vowel_passthrough :
  ~ (forall text, ~ In riVowel (convertBanglishToBengali text)).
Proof.
  intros H. apply (H (js "ঋ")). vm_compute. now left.
Qed.

(** ** Units that the converter cannot introduce *)

Section Preservation.

Lemma inherited_cases (k : jsstring) (v : value) :
  inherited k = Some v -> In v inheritedValues.
Proof.
  unfold inherited, inheritedValues.
  destruct (jsstring_eq_dec k (js "constructor")).
  { intros [= <-]. now left. }
  destruct (jsstring_eq_dec k (js "__proto__")).
  { intros [= <-]. right. now left. }
  destruct (in_dec jsstring_eq_dec k prototypeFunctions) as [I|]; [|discriminate].
  intros [= <-]. right. right. now apply in_map.
Qed.

Lemma split_Forall (Q : N -> Prop) (s : jsstring) :
  Forall Q s -> Forall (Forall Q) (split s).
Proof.
  induction s as [|c s IH]; intros H; simpl.
  - repeat constructor.
  - inversion H as [|? ? Hc Hs]; subst. specialize (IH Hs).
    destruct (c =? 32)%N.
    + constructor; [constructor|exact IH].
    + destruct (split s) as [|w ws]; [repeat constructor; assumption|].
      inversion IH; subst. constructor; [constructor|]; assumption.
Qed.

Lemma join_Forall (Q : N -> Prop) (a : list value) :
  Q 32%N -> Forall (fun v => Forall Q (ToString v)) a -> Forall Q (join a).
Proof.
  intros Hsp. induction a as [|v a IH]; intros H; simpl; [constructor|].
  inversion H as [|? ? Hv Ha]; subst.
  destruct a as [|v' a']; [exact Hv|].
  apply Forall_app. split; [exact Hv|]. constructor; [exact Hsp|].
  apply IH, Ha.
Qed.

(** A property of units that holds of the space, of every table glyph, of
    every dictionary value and of the string form of every inherited
    property carries over from the input to the output. *)
Lemma convert_Forall (Q : N -> Prop) (text : jsstring) :
  Q 32%N ->
  (forall g, In g tableGlyphs -> Forall Q g) ->
  (forall g, In g (map snd commonWords) -> Forall Q g) ->
  (forall v, In v inheritedValues -> Forall Q (ToString v)) ->
  Forall Q text -> Forall Q (convertBanglishToBengali text).
Proof.
  intros Hsp HG HD HI HT. unfold convertBanglishToBengali.
  destruct (isEmpty text); [constructor|].
  apply join_Forall; [exact Hsp|].
  apply Forall_map. apply split_Forall in HT.
  eapply Forall_impl; [|exact HT].
  intros word HW. unfold get.
  destruct (own commonWords (toLowerCase word)) as [s|] eqn:E.
  - destruct (ToBoolean (VString s)); simpl.
    + apply HD. apply own_In in E. apply (in_map snd) in E. exact E.
    + now apply convertWord_Forall.
  - destruct (inherited (toLowerCase word)) as [v|] eqn:E'.
    + destruct (ToBoolean v).
      * apply HI. eapply inherited_cases, E'.
      * now apply convertWord_Forall.
    + now apply convertWord_Forall.
Qed.

Lemma Forall_differs (a : N) (l : list jsstring) :
  forallb (forallb (fun c => negb (c =? a)%N)) l = true ->
  forall g, In g l -> Forall (fun c => c <> a) g.
Proof.
  intros H g I. rewrite forallb_forall in H. specialize (H g I).
  rewrite forallb_forall in H. apply Forall_forall. intros c Hc.
  specialize (H c Hc). apply negb_true_iff, N.eqb_neq in H. exact H.
Qed.

Lemma Forall_differs_notin (a : N) (s : jsstring) :
  Forall (fun c => c <> a) s <-> ~ In a s.
Proof.
  rewrite Forall_forall. split.
  - intros H I. now apply (H a I).
  - intros H c I ->. contradiction.
Qed.

(** The output holds a unit [a] only if the input does, for [a] not the
    space and not a unit of a table, of the dictionary or of an inherited
    property's string form. *)
Lemma convert_introduces_not (a : N) (text : jsstring) :
  a <> 32%N ->
  forallb (forallb (fun c => negb (c =? a)%N))
          (tableGlyphs ++ map snd commonWords ++ map ToString inheritedValues)
    = true ->
  ~ In a text -> ~ In a (convertBanglishToBengali text).
Proof.
  intros Ha HB HT. apply Forall_differs_notin.
  pose proof (Forall_differs _ _ HB) as HF.
  apply convert_Forall.
  - congruence.
  - intros g I. apply HF. apply in_or_app. now left.
  - intros g I. apply HF. apply in_or_app. right. apply in_or_app. now left.
  - intros v I. apply HF. do 2 (apply in_or_app; right). now apply in_map.
  - now apply Forall_differs_notin.
Qed.

End Preservation.

(** C10 (amended): U+098B is in the independent-vowel table as the value
    of the key [ri] and of no other key, and the converter never takes it
    from there: an output holds U+098B only if the input holds it already
    (where the passthrough branch copies it). *)
Theorem ri_entry_unreachable :
  own independentVowels (js "ri") = Some [riVowel] /\
  (forall k g, own independentVowels k = Some g -> In riVowel g -> k = js "ri") /\
  (forall text,
      ~ In riVowel text -> ~ In riVowel (convertBanglishToBengali text)).
Proof.
  split; [reflexivity|]. split.
  - intros k g E I.
    pose (p := fun (k g : jsstring) =>
                 if jsstring_eq_dec k (js "ri") then true
                 else forallb (fun c => negb (c =? riVowel)%N) g).
    assert (F : forallb (fun kv => p (fst kv) (snd kv)) independentVowels
                = true) by (vm_compute; reflexivity).
    pose proof (@own_forallb p independentVowels F k g E) as X.
    unfold p in X.
    destruct (jsstring_eq_dec k (js "ri")); [assumption|].
    rewrite forallb_forall in X. specialize (X _ I).
    rewrite N.eqb_refl in X. discriminate.
  - intros text. apply convert_introduces_not.
    + discriminate.
    + vm_compute. reflexivity.
Qed.

(** C10 at ["ri"]: the output র followed by ি holds no U+098B. *)
Lemma ri_entry_unreachable_witness :
  ~ In riVowel (convertBanglishToBengali (js "ri")).
Proof.
  apply (proj2 (proj2 ri_entry_unreachable)).
  vm_compute. intros [H|[H|[]]]; discriminate H.
Defined.

(** ** Vowel placement at the start of a word *)

Section VowelPlacement.

Lemma independentOK_spec (p : jsstring) :
  independentOK p = true ->
  (own independentVowels p = Some (independentForm p) \/
   (own independentVowels p = None /\ length p = 2 /\
    own independentVowels (charAt p 0) = Some (independentForm p))) /\
  ~ In (independentForm p) (map snd vowels).
Proof.
  unfold independentOK. cbv zeta. intros H.
  apply andb_true_iff in H. destruct H as [H1 H2]. split.
  - destruct (own independentVowels p) as [g'|].
    + destruct (jsstring_eq_dec (independentForm p) g'); [|discriminate].
      left. congruence.
    + apply andb_true_iff in H1. destruct H1 as [L H1].
      apply Nat.eqb_eq in L.
      destruct (own independentVowels (charAt p 0)) as [g'|]; [|discriminate].
      destruct (jsstring_eq_dec (independentForm p) g'); [|discriminate].
      right. repeat split; congruence.
  - destruct (in_dec jsstring_eq_dec (independentForm p) (map snd vowels));
      [discriminate|assumption].
Qed.

Lemma vowel_key_independentOK (p kar : jsstring) :
  own vowels p = Some kar -> independentOK p = true.
Proof.
  apply (@own_forallb (fun p _ => independentOK p) vowels).
  vm_compute. reflexivity.
Qed.

Lemma vowel_key_head (k : jsstring) :
  In k (map fst vowels) -> startsWithVowelLetter k = true.
Proof.
  assert (F : forallb startsWithVowelLetter (map fst vowels) = true)
    by (vm_compute; reflexivity).
  rewrite forallb_forall in F. apply F.
Qed.

Lemma consonant_key_head (k g : jsstring) :
  own consonants k = Some g -> startsWithVowelLetter k = false.
Proof.
  intros H. apply negb_true_iff. revert k g H.
  apply (@own_forallb (fun k _ => negb (startsWithVowelLetter k)) consonants).
  vm_compute. reflexivity.
Qed.

Lemma number_key_head (k g : jsstring) :
  own numbers k = Some g -> startsWithVowelLetter k = false.
Proof.
  intros H. apply negb_true_iff. revert k g H.
  apply (@own_forallb (fun k _ => negb (startsWithVowelLetter k)) numbers).
  vm_compute. reflexivity.
Qed.

Lemma vowel_letter_key (c : N) :
  isVowelLetter c = true -> exists kar, hit vowels [c] = Some kar.
Proof.
  unfold isVowelLetter. intros H. apply existsb_exists in H.
  destruct H as (x & I & E). apply N.eqb_eq in E. subst x.
  vm_compute in I.
  repeat (destruct I as [I|I]; [subst c; eexists; vm_compute; reflexivity|]).
  contradiction.
Qed.

Variables (word : jsstring) (c : N) (w : jsstring).
Hypothesis word_eq : word = c :: w.
Hypothesis vowel_c : isVowelLetter c = true.

Lemma substring_head (n : nat) :
  startsWithVowelLetter (substring word 0 (0 + S n)) = true.
Proof. rewrite word_eq. simpl. exact vowel_c. Qed.

Lemma no_hit_at_vowel (o : ConversionMap) (n : nat) :
  (forall k g, own o k = Some g -> startsWithVowelLetter k = false) ->
  n <= 2 -> hit o (substring word 0 (0 + S n)) = None.
Proof.
  intros H Hn.
  destruct (hit o (substring word 0 (0 + S n))) as [g|] eqn:E; [|reflexivity].
  apply hit_Some_own in E.
  - apply H in E. rewrite substring_head in E. discriminate.
  - pose proof (substring_length word 0 (S n)). lia.
Qed.

(** The first iteration on a word that begins with a vowel letter. *)
Lemma step_vowel_initial :
  exists p n,
    step word ([], 0) = (independentForm p, n) /\
    In p (map fst vowels) /\ n = length p /\ p = substring word 0 n /\
    independentOK p = true.
Proof.
  unfold step. cbv zeta.
  fold (independentForm (substring word 0 (0 + 2))).
  rewrite (independentForm_single word 0), !(charAt_substring word 0).
  rewrite (@no_hit_at_vowel consonants 2 consonant_key_head) by lia.
  rewrite (@no_hit_at_vowel consonants 1 consonant_key_head) by lia.
  rewrite (@no_hit_at_vowel consonants 0 consonant_key_head) by lia.
  rewrite (@no_hit_at_vowel numbers 0 number_key_head) by lia.
  assert (T : forall {A} (b : bool) (x : option A),
             (if b then @None A else None) = None) by (intros A []; reflexivity).
  rewrite T by exact None. clear T.
  assert (T : (if 0 + 1 <? length word then @None jsstring else None) = None)
    by (destruct (0 + 1 <? length word); reflexivity).
  rewrite T. clear T.
  assert (S1 : substring word 0 (0 + 1) = [c])
    by (rewrite word_eq; reflexivity).
  destruct (vowel_letter_key c vowel_c) as [kar1 H1].
  rewrite S1, H1. cbn [isEmpty orb app].
  assert (Single : exists p n,
             (independentForm [c], 0 + 1) = (independentForm p, n) /\
             In p (map fst vowels) /\ n = length p /\
             p = substring word 0 n /\ independentOK p = true).
  { exists [c], 1.
    apply hit_Some_own in H1; [|simpl; lia].
    pose proof (vowel_key_independentOK _ _ H1) as OK.
    repeat split.
    - apply own_In in H1. apply (in_map fst) in H1. exact H1.
    - symmetry. exact S1.
    - exact OK. }
  destruct (Nat.ltb_spec (0 + 1) (length word)) as [L|L]; [|exact Single].
  destruct (hit vowels (substring word 0 (0 + 2))) as [kar|] eqn:E;
    [|exact Single].
  exists (substring word 0 (0 + 2)), 2.
  pose proof (@hit_key word vowels 0 2 kar ltac:(lia) E) as I.
  apply hit_Some_own in E; [|pose proof (substring_length word 0 2); lia].
  repeat split.
  - apply (in_map fst) in I. exact I.
  - symmetry. apply substring_full_length. lia.
  - eapply vowel_key_independentOK, E.
Qed.

End VowelPlacement.

(** C5: for every word that begins with a pattern of the vowel table, the
    first iteration of [convertWord] matches a vowel pattern [p] at
    position 0 and emits its independent form: the entry of the
    independent-vowel table under [p], or, when [p] has two units and no
    entry, the entry under the first unit of [p].  That glyph is no value
    of the (dependent) vowel table, and the output of [convertWord] begins
    with it. *)
Theorem vowel_initial_independent (word k rest : jsstring) :
  In k (map fst vowels) -> word = k ++ rest ->
  exists p g n,
    step word ([], 0) = (g, n) /\
    In p (map fst vowels) /\ p = substring word 0 n /\ n = length p /\
    (own independentVowels p = Some g \/
     (own independentVowels p = None /\ length p = 2 /\
      own independentVowels (charAt p 0) = Some g)) /\
    ~ In g (map snd vowels) /\
    exists rest', convertWord word = g ++ rest'.
Proof.
  intros Hk Hw. apply vowel_key_head in Hk.
  destruct k as [|c k']; [discriminate|]. simpl in Hk, Hw.
  destruct (step_vowel_initial word c (k' ++ rest) Hw Hk)
    as (p & n & E & I & Hn & Hp & OK).
  apply independentOK_spec in OK. destruct OK as [F NV].
  exists p, (independentForm p), n. repeat split; auto.
  apply (convertWord_first word _ n); [|exact E].
  rewrite Hw. discriminate.
Qed.

(** C5 at ["eeta"]: [ee] has no independent entry of its own; the entry of
    [e] is emitted. *)
Lemma vowel_initial_independent_witness :
  exists p g n,
    step (js "eeta") ([], 0) = (g, n) /\
    In p (map fst vowels) /\ p = substring (js "eeta") 0 n /\ n = length p /\
    (own independentVowels p = Some g \/
     (own independentVowels p = None /\ length p = 2 /\
      own independentVowels (charAt p 0) = Some g)) /\
    ~ In g (map snd vowels) /\
    exists rest', convertWord (js "eeta") = g ++ rest'.
Proof.
  apply (vowel_initial_independent (js "eeta") (js "ee") (js "ta")).
  - vm_compute. tauto.
  - reflexivity.
Defined.

Example convertWord_eeta : convertWord (js "eeta") = js "এতা".
Proof. vm_compute. reflexivity. Qed.

(** ** Longest match *)

Section LongestMatch.

Variable word : jsstring.

Lemma consonant_values_nonempty (k g : jsstring) :
  own consonants k = Some g -> isEmpty g = false.
Proof.
  intros H. apply negb_true_iff. revert k g H.
  apply (own_forallb (fun _ g => negb (isEmpty g)) consonants).
  vm_compute. reflexivity.
Qed.

Lemma own_hit_consonants (k g : jsstring) :
  length k <= 3 -> own consonants k = Some g -> hit consonants k = Some g.
Proof.
  intros L H. rewrite (hit_short _ _ L), H.
  now rewrite (consonant_values_nonempty _ _ H).
Qed.

(** A three-unit key at [i] is taken, whatever shorter keys start there. *)
Lemma step_three (result : jsstring) (i : nat) (g : jsstring) :
  i + 2 < length word ->
  own consonants (substring word i (i + 3)) = Some g ->
  step word (result, i) = (result ++ g, i + 3).
Proof.
  intros L H. unfold step. cbv zeta.
  apply own_hit_consonants in H;
    [|pose proof (substring_length word i 3); lia].
  apply Nat.ltb_lt in L. now rewrite L, H.
Qed.

(** An iteration that advances by more than one unit consumed a key of
    that many units. *)
Lemma step_advance_key (result : jsstring) (i : nat) :
  exists n,
    snd (step word (result, i)) = i + n /\
    (n = 1 \/
     (2 <= n <= 3 /\ i + n <= length word /\
      exists o g, (o = consonants \/ o = vowels) /\
                  own o (substring word i (i + n)) = Some g)).
Proof.
  unfold step. cbv zeta.
  destruct (Nat.ltb_spec (i + 2) (length word)) as [L2|L2];
    [destruct (hit consonants (substring word i (i + 3))) as [g|] eqn:E3|].
  { exists 3. split; [reflexivity|]. right. split; [lia|]. split; [lia|].
    exists consonants, g. split; [now left|].
    apply hit_Some_own; [|exact E3].
    pose proof (substring_length word i 3). lia. }
  all: destruct (Nat.ltb_spec (i + 1) (length word)) as [L1|L1];
    [destruct (hit consonants (substring word i (i + 2))) as [g2|] eqn:E2;
     [|destruct (hit vowels (substring word i (i + 2))) as [k2|] eqn:V2]|].
  all: try (exists 2; split;
            [try reflexivity; destruct (isEmpty result || (i =? 0)); reflexivity|];
            right; split; [lia|]; split; [lia|];
            first [ exists consonants, g2; split; [now left|];
                    apply hit_Some_own; [|exact E2]
                  | exists vowels, k2; split; [now right|];
                    apply hit_Some_own; [|exact V2] ];
            pose proof (substring_length word i 2); lia).
  all: exists 1; split; [|now left];
    repeat match goal with
      | |- context [match hit ?o ?k with _ => _ end] => destruct (hit o k)
      | |- context [if ?b then _ else _] => destruct b
      end; reflexivity.
Qed.

Lemma key_c_only_first (o : ConversionMap) (k g : jsstring) :
  o = consonants \/ o = vowels -> own o k = Some g -> c_only_first k = true.
Proof.
  intros [-> | ->]; revert k g.
  - apply (own_forallb (fun k _ => c_only_first k) consonants).
    vm_compute. reflexivity.
  - apply (own_forallb (fun k _ => c_only_first k) vowels).
    vm_compute. reflexivity.
Qed.

Variable p : nat.
Hypothesis c_at_p : nth_error word p = Some letter_c.

(** No iteration jumps over a [c]. *)
Lemma step_stops_at_c (result : jsstring) (i : nat) :
  i < p -> snd (step word (result, i)) <= p.
Proof.
  intros L.
  destruct (step_advance_key result i) as (n & -> & [->|(Hn & Hl & o & g & Ho & E)]);
    [lia|].
  destruct (Nat.le_gt_cases (i + n) p) as [|G]; [assumption|exfalso].
  apply (key_c_only_first _ _ _ Ho) in E.
  unfold c_only_first in E. apply negb_true_iff in E.
  assert (X : existsb (N.eqb letter_c) (tl (substring word i (i + n))) = true).
  { apply existsb_exists. exists letter_c. split; [|apply N.eqb_refl].
    assert (Hj : nth_error (substring word i (i + n)) (S (p - i - 1))
                 = Some letter_c).
    { rewrite substring_nth by lia. rewrite <- c_at_p. f_equal. lia. }
    destruct (substring word i (i + n)) as [|a t]; [discriminate|].
    simpl in Hj |- *. eapply nth_error_In, Hj. }
  congruence.
Qed.

(** The scan stands at every [c] of the word. *)
Lemma scan_reaches_c (d : nat) :
  forall st, snd st <= p -> p - snd st <= d ->
  exists n r, loop n word st = (r, p).
Proof.
  induction d as [|d IH]; intros [r i] Hi Hd; simpl in Hi, Hd.
  - exists 0, r. simpl. f_equal. lia.
  - destruct (Nat.eq_dec i p) as [->|Hne].
    + exists 0, r. reflexivity.
    + assert (L : i < p) by lia.
      pose proof (step_stops_at_c r i L) as Hs.
      pose proof (step_advance word (r, i)) as Ha. cbn [snd] in Ha.
      destruct (IH (step word (r, i)) Hs ltac:(lia)) as (n & r' & E).
      exists (S n), r'. rewrite loop_S. simpl snd.
      assert (Lw : i < length word).
      { assert (p < length word) by (apply nth_error_Some; congruence). lia. }
      apply Nat.ltb_lt in Lw. now rewrite Lw.
Qed.

End LongestMatch.

Section LoopResult.

Variable word : jsstring.

Lemma while_loop (n : nat) (st : state) (r : jsstring) :
  while word (loop n word st) r -> while word st r.
Proof.
  revert st. induction n as [|n IH]; intros st H; [exact H|].
  rewrite loop_S in H.
  destruct (Nat.ltb_spec (snd st) (length word)) as [L|L]; [|exact H].
  apply while_iter; [exact L|]. apply IH, H.
Qed.

(** From a state the scan reaches, the output continues with what the next
    iteration appends. *)
Lemma convertWord_through (n : nat) (r g : jsstring) (i j : nat) :
  loop n word ([], 0) = (r, i) -> i < length word ->
  step word (r, i) = (r ++ g, j) ->
  exists r', convertWord word = r ++ g ++ r'.
Proof.
  intros E L S.
  destruct (loop_prefix word (length word) (r ++ g) j) as [r' P].
  exists r'. rewrite app_assoc, <- P.
  apply (while_deterministic word ([], 0)); [apply convertWord_while|].
  apply (while_loop n). rewrite E.
  apply while_iter; [exact L|]. rewrite S.
  apply loop_while. cbn [snd]. lia.
Qed.

End LoopResult.

(** C4: in every word, each occurrence of [chh] is reached by the scan and
    rendered by one iteration as the single glyph U+099B, and the output
    holds that glyph at that point; in general a three-unit key of the
    consonant table at the current position is taken before any two- or
    one-unit match is tried there. *)
Theorem longest_match_first :
  (forall pre post,
      let word := pre ++ js "chh" ++ post in
      exists n r r',
        loop n word ([], 0) = (r, length pre) /\
        step word (r, length pre) = (r ++ js "ছ", length pre + 3) /\
        convertWord word = r ++ js "ছ" ++ r') /\
  (forall word result i g,
      i + 2 < length word ->
      own consonants (substring word i (i + 3)) = Some g ->
      step word (result, i) = (result ++ g, i + 3)).
Proof.
  split; [|apply step_three].
  intros pre post word.
  assert (C : nth_error word (length pre) = Some letter_c).
  { unfold word. rewrite nth_error_app2 by lia.
    now rewrite Nat.sub_diag. }
  assert (L : length pre + 2 < length word).
  { unfold word. rewrite !length_app. simpl. lia. }
  assert (K : substring word (length pre) (length pre + 3) = js "chh").
  { unfold word, substring. replace (length pre + 3 - length pre) with 3 by lia.
    rewrite skipn_app, Nat.sub_diag, skipn_all. reflexivity. }
  destruct (scan_reaches_c word (length pre) C (length pre) ([], 0))
    as (n & r & E); simpl; try lia.
  assert (S : step word (r, length pre) = (r ++ js "ছ", length pre + 3)).
  { apply step_three; [exact L|]. rewrite K. reflexivity. }
  destruct (convertWord_through word n r (js "ছ") _ _ E ltac:(lia) S) as [r' R].
  exists n, r, r'. auto.
Qed.

(** C4 at ["bochha"]: after [b] and [o] the scan is at position 2, where
    [chh] starts; U+099B is emitted and the scan moves to position 5. *)
Lemma longest_match_first_witness :
  step (js "bochha") (js "বো", 2) = (js "বোছ", 5) /\
  exists n r r',
    loop n (js "bochha") ([], 0) = (r, 2) /\
    step (js "bochha") (r, 2) = (r ++ js "ছ", 5) /\
    convertWord (js "bochha") = r ++ js "ছ" ++ r'.
Proof.
  split.
  - apply (proj2 longest_match_first (js "bochha") (js "বো") 2 (js "ছ"));
      [vm_compute; lia|reflexivity].
  - apply (proj1 longest_match_first (js "bo") (js "a")).
Defined.

(** ** Passthrough of whole texts *)

Section PassthroughText.

Lemma split_nonempty (s : jsstring) : split s <> [].
Proof.
  destruct s as [|c s]; simpl; [discriminate|].
  destruct (c =? 32)%N; [discriminate|].
  destruct (split s); discriminate.
Qed.

Lemma join_split (s : jsstring) : join (map VString (split s)) = s.
Proof.
  induction s as [|c s IH]; [reflexivity|]. simpl split.
  pose proof (split_nonempty s) as NE.
  destruct (N.eqb_spec c 32) as [->|_].
  - destruct (split s) as [|w ws]; [contradiction|].
    simpl map in *. change (join (VString [] :: VString w :: map VString ws))
      with (32%N :: join (VString w :: map VString ws)).
    now rewrite IH.
  - destruct (split s) as [|w ws]; [contradiction|].
    simpl map in *. destruct ws as [|w' ws]; simpl in *; congruence.
Qed.

Lemma firstn_succ_charAt (w : jsstring) (i : nat) :
  firstn i w ++ charAt w i = firstn (i + 1) w.
Proof.
  revert i. induction w as [|c w IH]; intros [|i]; simpl; auto.
  - f_equal. apply IH.
Qed.

Lemma unmatchedWord_at (w : jsstring) (i : nat) :
  unmatchedWord w = true -> i < length w -> matchesAt w i = false.
Proof.
  unfold unmatchedWord. rewrite forallb_forall. intros H L.
  apply negb_true_iff, H, in_seq. lia.
Qed.

Lemma loop_unmatched (w : jsstring) :
  unmatchedWord w = true ->
  forall n i, i + n <= length w ->
  loop n w (firstn i w, i) = (firstn (i + n) w, i + n).
Proof.
  intros U. induction n as [|n IH]; intros i L.
  - now rewrite Nat.add_0_r.
  - rewrite loop_S. cbn [snd].
    destruct (Nat.ltb_spec i (length w)) as [Li|]; [|lia].
    rewrite (step_unmatched w _ i (unmatchedWord_at w i U Li)).
    rewrite firstn_succ_charAt, IH by lia.
    now replace (i + 1 + n) with (i + S n) by lia.
Qed.

Lemma convertWord_unmatched (w : jsstring) :
  unmatchedWord w = true -> convertWord w = w.
Proof.
  intros U. unfold convertWord.
  destruct w as [|c w'] eqn:E; [reflexivity|]. rewrite <- E in *.
  replace (isEmpty w) with false by (rewrite E; reflexivity).
  change ([], 0) with (firstn 0 w, 0).
  rewrite (loop_unmatched w U) by lia. simpl. apply firstn_all.
Qed.

Lemma inherited_name (k : jsstring) (v : value) :
  inherited k = Some v -> In k inheritedNames.
Proof.
  unfold inherited, inheritedNames.
  destruct (jsstring_eq_dec k (js "constructor")); [intros _; now left|].
  destruct (jsstring_eq_dec k (js "__proto__")); [intros _; right; now left|].
  destruct (in_dec jsstring_eq_dec k prototypeFunctions); [|discriminate].
  intros _. now do 2 right.
Qed.

(** Every inherited name holds the letter [r] or the letter [a]. *)
Lemma inherited_name_letter (k : jsstring) (v : value) :
  inherited k = Some v ->
  exists c, In c k /\ (c = N_of_ascii "r" \/ c = N_of_ascii "a").
Proof.
  intros H. apply inherited_name in H.
  assert (F : forallb (existsb (fun c => (c =? N_of_ascii "r")%N
                                         || (c =? N_of_ascii "a")%N))
                      inheritedNames = true) by (vm_compute; reflexivity).
  rewrite forallb_forall in F. specialize (F k H).
  apply existsb_exists in F. destruct F as (c & I & E).
  exists c. split; [exact I|].
  apply orb_true_iff in E. rewrite !N.eqb_eq in E. exact E.
Qed.

(** An [r] or [a] of a lower-cased word stems from that letter in either
    case, each of which is a one-unit key. *)
Lemma lowerUnit_key (u c : N) :
  In c (lowerUnit u) -> c = N_of_ascii "r" \/ c = N_of_ascii "a" ->
  In [u] engineKeys.
Proof.
  unfold lowerUnit. intros I Hc.
  destruct ((65 <=? u)%N && (u <=? 90)%N) eqn:Up.
  - destruct I as [<-|[]].
    assert (u = 82%N \/ u = 65%N) as [-> | ->]
      by (simpl in Hc; lia); vm_compute; tauto.
  - destruct (N.eqb_spec u 0x212A).
    { destruct I as [<-|[]]. simpl in Hc. lia. }
    destruct (N.eqb_spec u 0x130).
    { destruct I as [<-|[<-|[]]]; simpl in Hc; lia. }
    destruct I as [<-|[]].
    destruct Hc as [-> | ->]; vm_compute; tauto.
Qed.

Lemma unit_key_matches (w : jsstring) (u : N) :
  In u w -> In [u] engineKeys -> exists i, i < length w /\ matchesAt w i = true.
Proof.
  intros I K. apply In_nth_error in I. destruct I as [i E].
  exists i. split; [apply nth_error_Some; congruence|].
  unfold matchesAt. apply existsb_exists. exists [u]. split; [exact K|].
  apply nth_error_split in E. destruct E as (l1 & l2 & -> & <-).
  rewrite skipn_app, Nat.sub_diag, skipn_all. simpl.
  now rewrite N.eqb_refl.
Qed.

Lemma unmatched_not_inherited (w : jsstring) :
  unmatchedWord w = true -> inherited (toLowerCase w) = None.
Proof.
  intros U. destruct (inherited (toLowerCase w)) as [v|] eqn:E; [|reflexivity].
  apply inherited_name_letter in E. destruct E as (c & I & Hc).
  unfold toLowerCase in I. apply in_flat_map in I.
  destruct I as (u & Iu & Ic).
  pose proof (lowerUnit_key u c Ic Hc) as K.
  destruct (unit_key_matches w u Iu K) as (i & L & M).
  rewrite (unmatchedWord_at w i U L) in M. discriminate.
Qed.

Lemma convert_passesThrough (x : jsstring) :
  passesThrough x = true -> convertBanglishToBengali x = x.
Proof.
  intros H. unfold convertBanglishToBengali.
  destruct x as [|c x'] eqn:E; [reflexivity|]. rewrite <- E in *.
  replace (isEmpty x) with false by (rewrite E; reflexivity).
  rewrite <- (join_split x) at 2. f_equal.
  apply map_ext_in. intros w I.
  unfold passesThrough in H. rewrite forallb_forall in H.
  specialize (H w I). apply andb_true_iff in H. destruct H as [D U].
  unfold get. unfold isDictionaryKey in D.
  destruct (own commonWords (toLowerCase w)); [discriminate|].
  rewrite (unmatched_not_inherited w U).
  now rewrite (convertWord_unmatched w U).
Qed.

End PassthroughText.

(** C7: a text of which no word lower-cases to a dictionary key and in
    which no key of the consonant, vowel or numeral table starts at any
    position is converted to itself, and converting the result again
    changes nothing. *)
Theorem passthrough_idempotent (x : jsstring) :
  passesThrough x = true ->
  convertBanglishToBengali x = x /\
  convertBanglishToBengali (convertBanglishToBengali x)
    = convertBanglishToBengali x.
Proof.
  intros H. pose proof (convert_passesThrough x H) as E.
  split; [exact E|]. now rewrite !E.
Qed.

(** C7 at a Bengali text with punctuation. *)
Lemma passthrough_idempotent_witness :
  convertBanglishToBengali (js "আমি, ভাত খাই!") = js "আমি, ভাত খাই!" /\
  convertBanglishToBengali (convertBanglishToBengali (js "আমি, ভাত খাই!"))
    = convertBanglishToBengali (js "আমি, ভাত খাই!").
Proof.
  apply (passthrough_idempotent (js "আমি, ভাত খাই!")).
  vm_compute. reflexivity.
Defined.

(** ** Field by field conversion *)

Section Fields.

Lemma split_noSpace (s : jsstring) : Forall noSpace (split s).
Proof.
  induction s as [|c s IH]; simpl.
  - repeat constructor.
  - destruct (N.eqb_spec c 32) as [->|Hc].
    + constructor; [constructor|exact IH].
    + destruct (split s) as [|w ws]; [repeat constructor; assumption|].
      inversion IH; subst. constructor; [constructor|]; assumption.
Qed.

Lemma split_single (a : jsstring) : noSpace a -> split a = [a].
Proof.
  induction a as [|c a IH]; intros H; [reflexivity|].
  inversion H as [|? ? Hc Ha]; subst. simpl.
  apply N.eqb_neq in Hc. rewrite Hc, (IH Ha). reflexivity.
Qed.

Lemma split_app_space (a b : jsstring) :
  noSpace a -> split (a ++ 32%N :: b) = a :: split b.
Proof.
  induction a as [|c a IH]; intros H; [reflexivity|].
  inversion H as [|? ? Hc Ha]; subst. simpl.
  apply N.eqb_neq in Hc. rewrite Hc, (IH Ha). reflexivity.
Qed.

Lemma split_join (vs : list value) :
  vs <> [] -> Forall (fun v => noSpace (ToString v)) vs ->
  split (join vs) = map ToString vs.
Proof.
  induction vs as [|v vs IH]; intros NE H; [contradiction|].
  inversion H as [|? ? Hv Hvs]; subst.
  destruct vs as [|v' vs'].
  - simpl. now apply split_single.
  - change (join (v :: v' :: vs'))
      with (ToString v ++ 32%N :: join (v' :: vs')).
    rewrite (split_app_space _ _ Hv), IH; [reflexivity|discriminate|exact Hvs].
Qed.

Lemma dictionary_value_truthy (k s : jsstring) :
  own commonWords k = Some s -> ToBoolean (VString s) = true.
Proof.
  revert k s.
  apply (own_forallb (fun _ s => ToBoolean (VString s)) commonWords).
  vm_compute. reflexivity.
Qed.

Lemma dictionary_value_noSpace (k s : jsstring) :
  own commonWords k = Some s -> noSpace s.
Proof.
  intros H. apply own_In in H. apply (in_map snd) in H. revert s H.
  apply Forall_differs. vm_compute. reflexivity.
Qed.

Lemma convertWord_noSpace (w : jsstring) : noSpace w -> noSpace (convertWord w).
Proof.
  apply convertWord_Forall. apply Forall_differs. vm_compute. reflexivity.
Qed.

Lemma convertField_noSpace (w : jsstring) : noSpace w -> noSpace (convertField w).
Proof.
  intros H. unfold convertField.
  destruct (own commonWords (toLowerCase w)) eqn:E.
  - eapply dictionary_value_noSpace, E.
  - now apply convertWord_noSpace.
Qed.

End Fields.

(** X1: where no field lower-cases to a name inherited from
    [Object.prototype], the fields of the output are the fields of the
    input, each replaced by its dictionary value when its lower-casing is a
    dictionary key and by [convertWord] of it otherwise; in particular the
    number of fields is preserved. *)
Theorem convert_fields (text : jsstring) :
  (forall w, In w (split text) -> inherited (toLowerCase w) = None) ->
  split (convertBanglishToBengali text) = map convertField (split text) /\
  length (split (convertBanglishToBengali text)) = length (split text).
Proof.
  intros H.
  assert (E : split (convertBanglishToBengali text)
              = map convertField (split text)).
  { unfold convertBanglishToBengali.
    destruct text as [|c t] eqn:Et; [reflexivity|]. rewrite <- Et in *.
    replace (isEmpty text) with false by (rewrite Et; reflexivity).
    assert (M : map (fun word =>
                       match get commonWords (toLowerCase word) with
                       | Some v => if ToBoolean v then v
                                   else VString (convertWord word)
                       | None => VString (convertWord word)
                       end) (split text)
                = map VString (map convertField (split text))).
    { rewrite map_map. apply map_ext_in. intros w I.
      unfold get, convertField. rewrite (H w I).
      destruct (own commonWords (toLowerCase w)) as [s|] eqn:D; [|reflexivity].
      now rewrite (dictionary_value_truthy _ _ D). }
    rewrite M, split_join.
    - rewrite map_map. cbn [ToString]. apply map_id.
    - pose proof (split_nonempty text).
      destruct (split text); [contradiction|discriminate].
    - rewrite map_map. apply Forall_map.
      eapply Forall_impl; [|apply split_noSpace].
      intros w. apply convertField_noSpace. }
  split; [exact E|]. now rewrite E, length_map.
Qed.

(** [convert_fields] at a text with a dictionary word in capitals, an
    empty field and a word that merely contains a dictionary key. *)
Lemma convert_fields_witness :
  split (convertBanglishToBengali (js "AMI  amir"))
    = map convertField (split (js "AMI  amir")) /\
  length (split (convertBanglishToBengali (js "AMI  amir")))
    = length (split (js "AMI  amir")).
Proof.
  apply (convert_fields (js "AMI  amir")).
  intros w I. vm_compute in I.
  repeat (destruct I as [I|I]; [subst w; reflexivity|]). contradiction.
Defined.

Example convert_ami_amir :
  convertBanglishToBengali (js "AMI  amir") = js "আমি  অমির".
Proof. vm_compute. reflexivity. Qed.

(** ** The guard of the one-unit vowel branch *)

Section Guard.

Variables (word : jsstring) (i : nat) (c : N).
Hypothesis c_at_i : nth_error word i = Some c.
Hypothesis vowel_c : isVowelLetter c = true.

Lemma no_hit_at_vowel_letter (o : ConversionMap) (n : nat) :
  (forall k g, own o k = Some g -> startsWithVowelLetter k = false) ->
  n <= 2 -> hit o (substring word i (i + S n)) = None.
Proof.
  intros H Hn.
  destruct (hit o (substring word i (i + S n))) as [g|] eqn:E; [|reflexivity].
  apply hit_Some_own in E;
    [|pose proof (substring_length word i (S n)); lia].
  apply H in E.
  pose proof (substring_nth word i (S n) 0 ltac:(lia)) as N0.
  rewrite Nat.add_0_r, c_at_i in N0.
  destruct (substring word i (i + S n)) as [|a t]; [discriminate|].
  simpl in N0, E. congruence.
Qed.

Lemma charAt_unit : charAt word i = [c].
Proof. unfold charAt. now rewrite c_at_i. Qed.

End Guard.

(** X2: in the one-unit vowel branch, away from the start of the word,
    the last unit of [result] decides: after a kar the Latin letter itself is
    appended, otherwise the kar of the letter. *)
Theorem stacking_guard_one_unit
    (word result : jsstring) (i : nat) (c : N) (kar : jsstring) :
  nth_error word i = Some c ->
  own vowels [c] = Some kar ->
  (i + 1 < length word -> hit vowels (substring word i (i + 2)) = None) ->
  result <> [] -> i <> 0 ->
  step word (result, i)
  = (result ++ (if kars_has (charAt result (length result - 1))
                then [c] else kar),
     i + 1).
Proof.
  intros Hc Hk H2 Hr Hi.
  assert (V : isVowelLetter c = true).
  { apply own_In in Hk. apply (in_map fst) in Hk.
    apply vowel_key_head in Hk. exact Hk. }
  unfold step. cbv zeta.
  rewrite (charAt_unit word i c Hc).
  pose proof (no_hit_at_vowel_letter word i c Hc V) as NH.
  rewrite (NH consonants 2 consonant_key_head) by lia.
  rewrite (NH consonants 1 consonant_key_head) by lia.
  pose proof (NH consonants 0 consonant_key_head ltac:(lia)) as C1.
  pose proof (NH numbers 0 number_key_head ltac:(lia)) as N1.
  rewrite <- charAt_substring, (charAt_unit word i c Hc) in C1, N1.
  rewrite C1, N1.
  assert (HV : hit vowels [c] = Some kar).
  { rewrite hit_short by (simpl; lia). rewrite Hk.
    replace (isEmpty kar) with false; [reflexivity|].
    symmetry. apply negb_true_iff. revert Hk.
    apply (own_forallb (fun _ g => negb (isEmpty g)) vowels).
    vm_compute. reflexivity. }
  rewrite HV.
  replace (isEmpty result || (i =? 0)) with false.
  2:{ symmetry. apply orb_false_iff. split.
      - destruct result; [contradiction|reflexivity].
      - now apply Nat.eqb_neq. }
  assert (T : (if i + 2 <? length word then @None jsstring else None) = None)
    by (destruct (i + 2 <? length word); reflexivity).
  rewrite T. clear T.
  destruct (Nat.ltb_spec (i + 1) (length word)) as [L|L].
  - rewrite (H2 L).
    destruct (kars_has (charAt result (length result - 1))); reflexivity.
  - destruct (kars_has (charAt result (length result - 1))); reflexivity.
Qed.

(** The guard at ["kai"]: after the kar of [a], the letter [i] stays
    Latin. *)
Lemma stacking_guard_one_unit_witness :
  step (js "kai") (js "কা", 2) = (js "কাi", 3).
Proof.
  apply (stacking_guard_one_unit (js "kai") (js "কা") 2 (N_of_ascii "i")
                                 (js "ি"));
    try reflexivity; try discriminate.
  vm_compute. lia.
Defined.

(** ** The three kinds of iteration *)

Section Classification.

Lemma engine_values_nonempty (o : ConversionMap) (k g : jsstring) :
  o = consonants \/ o = vowels \/ o = numbers ->
  own o k = Some g -> isEmpty g = false.
Proof.
  intros H E. apply negb_true_iff. revert k g E.
  destruct H as [-> | [-> | ->]];
    apply (own_forallb (fun _ g => negb (isEmpty g)));
    vm_compute; reflexivity.
Qed.

Lemma hit_None_own (o : ConversionMap) (k : jsstring) :
  o = consonants \/ o = vowels \/ o = numbers ->
  length k <= 3 -> hit o k = None -> own o k = None.
Proof.
  intros Ho L H. rewrite (hit_short _ _ L) in H.
  destruct (own o k) as [g|] eqn:E; [|reflexivity].
  now rewrite (engine_values_nonempty o k g Ho E) in H.
Qed.

Variable word : jsstring.

Lemma hit_engineKeys (o : ConversionMap) (i n : nat) (g : jsstring) :
  incl (map fst o) engineKeys -> n <= 3 ->
  hit o (substring word i (i + n)) = Some g ->
  In (substring word i (i + n)) engineKeys.
Proof.
  intros HI Hn H. apply HI.
  apply (hit_key word o i n g Hn) in H.
  apply (in_map fst) in H. exact H.
Qed.

Lemma unit_not_key (i : nat) :
  hit numbers (substring word i (i + 1)) = None ->
  hit consonants (substring word i (i + 1)) = None ->
  hit vowels (substring word i (i + 1)) = None ->
  ~ In (substring word i (i + 1)) engineKeys.
Proof.
  intros Hn Hc Hv.
  pose proof (substring_length word i 1) as L.
  apply hit_None_own in Hn; [|tauto|lia].
  apply hit_None_own in Hc; [|tauto|lia].
  apply hit_None_own in Hv; [|tauto|lia].
  apply own_None in Hn, Hc, Hv.
  unfold engineKeys. intros I.
  apply in_app_or in I. destruct I as [I|I]; [tauto|].
  apply in_app_or in I. tauto.
Qed.

(** An iteration either consumes a key and appends a table glyph, or
    copies a unit that is no key, or (the guard) copies a vowel letter
    behind a kar. *)
Lemma step_classify (result : jsstring) (i : nat) :
  exists g n,
    step word (result, i) = (result ++ g, i + n) /\
    1 <= n <= 3 /\
    ((In g tableGlyphs /\ In (substring word i (i + n)) engineKeys) \/
     (n = 1 /\ g = substring word i (i + 1) /\
      ~ In (substring word i (i + 1)) engineKeys) \/
     (n = 1 /\ g = substring word i (i + 1) /\
      In g (map fst vowels) /\ result <> [] /\
      kars_has (charAt result (length result - 1)) = true)).
Proof.
  unfold step; cbv zeta.
  fold (independentForm (substring word i (i + 2))).
  rewrite (independentForm_single word i), !(charAt_substring word i).
  destruct (if i + 2 <? length word
            then hit consonants (substring word i (i + 3)) else None)
    as [g3|] eqn:E3.
  { exists g3, 3. split; [reflexivity|]. split; [lia|]. left.
    destruct (i + 2 <? length word); [|discriminate]. split.
    - apply (hit_glyph_consonants word i 3 g3); [lia|exact E3].
    - apply (hit_engineKeys consonants i 3 g3 engineKeys_consonants);
        [lia|exact E3]. }
  destruct (if i + 1 <? length word
            then hit consonants (substring word i (i + 2)) else None)
    as [g2|] eqn:E2.
  { exists g2, 2. split; [reflexivity|]. split; [lia|]. left.
    destruct (i + 1 <? length word); [|discriminate]. split.
    - apply (hit_glyph_consonants word i 2 g2); [lia|exact E2].
    - apply (hit_engineKeys consonants i 2 g2 engineKeys_consonants);
        [lia|exact E2]. }
  destruct (if i + 1 <? length word
            then hit vowels (substring word i (i + 2)) else None)
    as [k2|] eqn:V2.
  { destruct (i + 1 <? length word); [|discriminate].
    pose proof (hit_engineKeys vowels i 2 k2 engineKeys_vowels
                  ltac:(lia) V2) as K.
    apply (hit_key word vowels i 2 k2 ltac:(lia)) in V2.
    apply in_tableGlyphs_vowels in V2. destruct V2 as [G1 G2].
    destruct (isEmpty result || (i =? 0)).
    - exists (independentForm (substring word i (i + 2))), 2.
      split; [reflexivity|]. split; [lia|]. left. now split.
    - exists k2, 2. split; [reflexivity|]. split; [lia|]. left. now split. }
  destruct (hit numbers (substring word i (i + 1))) as [d|] eqn:N1.
  { exists d, 1. split; [reflexivity|]. split; [lia|]. left. split.
    - apply (hit_key word numbers i 1 d ltac:(lia)) in N1.
      now apply in_tableGlyphs_numbers in N1.
    - apply (hit_engineKeys numbers i 1 d engineKeys_numbers);
        [lia|exact N1]. }
  destruct (hit consonants (substring word i (i + 1))) as [g1|] eqn:C1.
  { exists g1, 1. split; [reflexivity|]. split; [lia|]. left. split.
    - apply (hit_glyph_consonants word i 1 g1); [lia|exact C1].
    - apply (hit_engineKeys consonants i 1 g1 engineKeys_consonants);
        [lia|exact C1]. }
  destruct (hit vowels (substring word i (i + 1))) as [k1|] eqn:V1.
  { pose proof (hit_engineKeys vowels i 1 k1 engineKeys_vowels
                  ltac:(lia) V1) as K.
    apply (hit_key word vowels i 1 k1 ltac:(lia)) in V1.
    pose proof (in_map fst _ _ V1) as KV. simpl in KV.
    apply in_tableGlyphs_vowels in V1. destruct V1 as [G1 G2].
    destruct (isEmpty result || (i =? 0)) eqn:B.
    - exists (independentForm (substring word i (i + 1))), 1.
      split; [reflexivity|]. split; [lia|]. left. now split.
    - destruct (kars_has (charAt result (length result - 1))) eqn:KH.
      + exists (substring word i (i + 1)), 1.
        split; [reflexivity|]. split; [lia|]. right. right.
        repeat split; auto.
        apply orb_false_iff in B. destruct B as [B _].
        intros ->. discriminate.
      + exists k1, 1. split; [reflexivity|]. split; [lia|]. left.
        now split. }
  exists (substring word i (i + 1)), 1.
  split; [reflexivity|]. split; [lia|]. right. left.
  repeat split. now apply unit_not_key.
Qed.

End Classification.

(** ** The scan consumes the word exactly *)

Section Consumption.

Variable word : jsstring.

Lemma step_within (result : jsstring) (i : nat) :
  i < length word -> snd (step word (result, i)) <= length word.
Proof.
  intros L.
  destruct (step_advance_key word result i)
    as (n & -> & [-> | (_ & H & _)]); lia.
Qed.

Lemma loop_exit (fuel : nat) (st : state) :
  length word - snd st <= fuel -> length word <= snd (loop fuel word st).
Proof.
  revert st. induction fuel as [|fuel IH]; intros st H; simpl; [lia|].
  destruct (Nat.ltb_spec (snd st) (length word)) as [L|L]; [|exact L].
  apply IH. pose proof (step_advance word st). lia.
Qed.

Lemma loop_within (fuel : nat) (st : state) :
  snd st <= length word -> snd (loop fuel word st) <= length word.
Proof.
  apply (loop_invariant word (fun st => snd st <= length word)).
  intros [r i] L _. now apply step_within.
Qed.

Lemma loop_end : snd (loop (length word) word ([], 0)) = length word.
Proof.
  apply Nat.le_antisymm.
  - apply loop_within. simpl. lia.
  - apply loop_exit. simpl. lia.
Qed.

Lemma convertWord_loop :
  convertWord word = fst (loop (length word) word ([], 0)).
Proof.
  unfold convertWord. destruct word; reflexivity.
Qed.

Lemma firstn_add_substring (i n : nat) :
  firstn (i + n) word = firstn i word ++ substring word i (i + n).
Proof.
  unfold substring. replace (i + n - i) with n by lia.
  generalize word. induction i as [|i IH]; intros w; [reflexivity|].
  destruct w as [|a w]; simpl.
  - now rewrite firstn_nil.
  - f_equal. apply IH.
Qed.

Lemma substring_unit_length (i : nat) :
  i < length word -> length (substring word i (i + 1)) = 1.
Proof. intros L. apply substring_full_length. lia. Qed.

End Consumption.

(** ** Unmapped units and lengths *)

Section Inert.

Lemma inert_false_in (u : N) (g : jsstring) (l : list jsstring) :
  incl l (engineKeys ++ tableGlyphs) -> In g l -> In u g -> inert u = false.
Proof.
  intros HI Ig Iu. unfold inert. apply negb_false_iff, existsb_exists.
  exists u. split; [|apply N.eqb_refl].
  rewrite <- concat_app. apply in_concat. exists g. split; [|exact Iu].
  apply HI, Ig.
Qed.

Lemma filter_inert_nil (g : jsstring) :
  In g (engineKeys ++ tableGlyphs) -> filter inert g = [].
Proof.
  intros I.
  assert (F : forall u, In u g -> inert u = false).
  { intros u Iu. apply (inert_false_in u g (engineKeys ++ tableGlyphs));
      [apply incl_refl|exact I|exact Iu]. }
  clear I. induction g as [|a g IH]; [reflexivity|]. simpl.
  rewrite (F a) by now left. apply IH. intros u Iu. apply F. now right.
Qed.

End Inert.

(** X3: the units of a word that occur in no key of the consonant, vowel
    or numeral table and in no glyph of the tables (punctuation, symbols,
    letters without a mapping) are the same in the output of [convertWord],
    in the same order and number. *)
Theorem unmapped_units_preserved (word : jsstring) :
  filter inert (convertWord word) = filter inert word.
Proof.
  rewrite convertWord_loop.
  assert (I : forall st,
             filter inert (fst st) = filter inert (firstn (snd st) word) ->
             filter inert (fst (loop (length word) word st))
             = filter inert (firstn (snd (loop (length word) word st)) word)).
  { apply (loop_invariant word
             (fun st => filter inert (fst st)
                        = filter inert (firstn (snd st) word))).
    intros [r i] _ H. cbn [fst snd] in H.
    destruct (step_classify word r i)
      as (g & n & -> & _ & [[G K] | [(-> & -> & _) | (-> & -> & _)]]);
      cbn [fst snd]; rewrite firstn_add_substring, !filter_app, H;
      [|reflexivity|reflexivity].
    rewrite (filter_inert_nil g) by (apply in_or_app; now right).
    rewrite (filter_inert_nil (substring word i (i + n)))
      by (apply in_or_app; now left).
    reflexivity. }
  rewrite (I ([], 0) eq_refl), loop_end. now rewrite firstn_all.
Qed.

Lemma convertWord_bounds (word : jsstring) :
  length (convertWord word) <= 3 * length word /\
  length word <= 3 * length (convertWord word).
Proof.
  rewrite convertWord_loop.
  pose (P := fun st : state =>
               length (fst st) <= 3 * snd st /\ snd st <= 3 * length (fst st)).
  assert (I : P (loop (length word) word ([], 0))).
  { apply (loop_invariant word P).
    - intros [r i] L [H1 H2]. cbn [fst snd] in *.
      assert (G : forall g, In g tableGlyphs -> 1 <= length g <= 3).
      { assert (F : forallb (fun g => (1 <=? length g) && (length g <=? 3))
                            tableGlyphs = true) by (vm_compute; reflexivity).
        rewrite forallb_forall in F. intros g Ig. specialize (F g Ig).
        apply andb_true_iff in F. destruct F as [F1 F2].
        apply Nat.leb_le in F1, F2. lia. }
      unfold P.
      destruct (step_classify word r i)
        as (g & n & -> & Hn & [[Ig _] | [(-> & -> & _) | (-> & -> & _)]]);
        cbn [fst snd]; rewrite length_app.
      + specialize (G g Ig). lia.
      + rewrite (substring_unit_length word i L). lia.
      + rewrite (substring_unit_length word i L). lia.
    - unfold P. simpl. lia. }
  unfold P in I. rewrite loop_end in I. exact I.
Qed.

Lemma convertWord_nonempty (word : jsstring) :
  word <> [] -> convertWord word <> [].
Proof.
  intros H E. pose proof (convertWord_bounds word) as [_ B].
  rewrite E in B. destruct word; [contradiction|simpl in B; lia].
Qed.

(** X4: the output of [convertWord] is at most three times as long as the
    word and the word at most three times as long as the output (an
    iteration consumes one to three units and appends one to three); so
    the output is empty only for the empty word. *)
Theorem convertWord_length (word : jsstring) :
  length (convertWord word) <= 3 * length word /\
  length word <= 3 * length (convertWord word) /\
  (convertWord word = [] <-> word = []).
Proof.
  pose proof (convertWord_bounds word) as B.
  split; [tauto|]. split; [tauto|]. split.
  - intros E. destruct word as [|c w]; [reflexivity|].
    now apply convertWord_nonempty in E.
  - intros ->. reflexivity.
Qed.

(** X5: [convertBanglishToBengali] returns the empty string for the empty
    text only. *)
Theorem convert_empty_iff (text : jsstring) :
  convertBanglishToBengali text = [] <-> text = [].
Proof.
  split; [|intros ->; reflexivity].
  intros E. destruct text as [|c t] eqn:Et; [reflexivity|exfalso].
  rewrite <- Et in *. unfold convertBanglishToBengali in E.
  replace (isEmpty text) with false in E by (rewrite Et; reflexivity).
  pose proof (join_split text) as J.
  destruct (split text) as [|w ws]; [rewrite Et in J; discriminate|].
  destruct ws as [|w' ws].
  - simpl in J. subst w. simpl in E.
    assert (NW : convertWord text <> []).
    { apply convertWord_nonempty. rewrite Et. discriminate. }
    unfold get in E.
    destruct (own commonWords (toLowerCase text)) as [s|] eqn:D.
    + rewrite (dictionary_value_truthy _ _ D) in E. simpl in E. subst s.
      apply dictionary_value_truthy in D. discriminate.
    + destruct (inherited (toLowerCase text)) as [v|] eqn:I; [|contradiction].
      destruct (ToBoolean v); [|contradiction].
      apply inherited_cases in I.
      assert (F : forallb (fun v => negb (isEmpty (ToString v)))
                          inheritedValues = true) by (vm_compute; reflexivity).
      rewrite forallb_forall in F. specialize (F v I).
      rewrite E in F. discriminate.
  - cbn [map] in E.
    match type of E with join (?a :: ?b :: ?l) = _ =>
      change (join (a :: b :: l)) with (ToString a ++ 32%N :: join (b :: l)) in E
    end.
    destruct (ToString _) in E; discriminate.
Qed.

(** ** Numerals *)

Section ScanReaches.

Variables (word : jsstring) (p : nat) (u : N).
Hypothesis u_at_p : nth_error word p = Some u.
Hypothesis u_noKeyTail : noKeyTail u = true.

(** No iteration jumps over a unit that no key holds after its first
    unit. *)
Lemma step_stops_at (result : jsstring) (i : nat) :
  i < p -> snd (step word (result, i)) <= p.
Proof.
  intros L.
  destruct (step_advance_key word result i)
    as (n & -> & [->|(Hn & Hl & o & g & Ho & E)]); [lia|].
  destruct (Nat.le_gt_cases (i + n) p) as [|G]; [assumption|exfalso].
  assert (K : In (substring word i (i + n)) engineKeys).
  { apply own_In in E. apply (in_map fst) in E. simpl in E.
    destruct Ho as [-> | ->];
      [apply engineKeys_consonants|apply engineKeys_vowels]; exact E. }
  unfold noKeyTail in u_noKeyTail. rewrite forallb_forall in u_noKeyTail.
  specialize (u_noKeyTail _ K). apply negb_true_iff in u_noKeyTail.
  assert (X : existsb (N.eqb u) (tl (substring word i (i + n))) = true).
  { apply existsb_exists. exists u. split; [|apply N.eqb_refl].
    assert (Hj : nth_error (substring word i (i + n)) (S (p - i - 1))
                 = Some u).
    { rewrite substring_nth by lia. rewrite <- u_at_p. f_equal. lia. }
    destruct (substring word i (i + n)) as [|a t]; [discriminate|].
    simpl in Hj |- *. eapply nth_error_In, Hj. }
  congruence.
Qed.

Lemma scan_reaches (d : nat) :
  forall st, snd st <= p -> p - snd st <= d ->
  exists n r, loop n word st = (r, p).
Proof.
  induction d as [|d IH]; intros [r i] Hi Hd; cbn [snd] in Hi, Hd.
  - exists 0, r. simpl. f_equal. lia.
  - destruct (Nat.eq_dec i p) as [->|Hne].
    + exists 0, r. reflexivity.
    + assert (L : i < p) by lia.
      pose proof (step_stops_at r i L) as Hs.
      pose proof (step_advance word (r, i)) as Ha. cbn [snd] in Ha.
      destruct (IH (step word (r, i)) Hs ltac:(lia)) as (n & r' & E).
      exists (S n), r'. rewrite loop_S. cbn [snd].
      assert (Lw : i < length word).
      { assert (p < length word) by (apply nth_error_Some; congruence). lia. }
      apply Nat.ltb_lt in Lw. now rewrite Lw.
Qed.

End ScanReaches.

Section Digits.

Variables (word : jsstring) (i : nat) (d : N).
Hypothesis d_at_i : nth_error word i = Some d.
Hypothesis digit_d : isDigit d = true.

Lemma no_hit_at_digit (o : ConversionMap) (n : nat) :
  (forall k g, own o k = Some g -> startsWithDigit k = false) ->
  n <= 2 -> hit o (substring word i (i + S n)) = None.
Proof.
  intros H Hn.
  destruct (hit o (substring word i (i + S n))) as [g|] eqn:E; [|reflexivity].
  apply hit_Some_own in E;
    [|pose proof (substring_length word i (S n)); lia].
  apply H in E.
  pose proof (substring_nth word i (S n) 0 ltac:(lia)) as N0.
  rewrite Nat.add_0_r, d_at_i in N0.
  destruct (substring word i (i + S n)) as [|a t]; [discriminate|].
  simpl in N0, E. congruence.
Qed.

Lemma letter_key_head (o : ConversionMap) (k g : jsstring) :
  o = consonants \/ o = vowels ->
  own o k = Some g -> startsWithDigit k = false.
Proof.
  intros Ho E. apply negb_true_iff. revert k g E.
  destruct Ho as [-> | ->];
    apply (own_forallb (fun k _ => negb (startsWithDigit k)));
    vm_compute; reflexivity.
Qed.

Lemma hit_digit : hit numbers [d] = Some [bengaliDigit d].
Proof.
  unfold isDigit in digit_d. apply andb_true_iff in digit_d.
  destruct digit_d as [L H]. apply N.leb_le in L, H.
  assert (C : (d = 48 \/ d = 49 \/ d = 50 \/ d = 51 \/ d = 52 \/
               d = 53 \/ d = 54 \/ d = 55 \/ d = 56 \/ d = 57)%N) by lia.
  repeat (destruct C as [-> | C]; [reflexivity|]). subst d. reflexivity.
Qed.

(** At a digit the iteration appends its Bengali digit and advances by
    one unit, whatever surrounds it. *)
Lemma step_digit (result : jsstring) :
  step word (result, i) = (result ++ [bengaliDigit d], i + 1).
Proof.
  unfold step. cbv zeta.
  assert (C : forall k g, own consonants k = Some g ->
                          startsWithDigit k = false).
  { intros k g. apply letter_key_head. now left. }
  assert (V : forall k g, own vowels k = Some g ->
                          startsWithDigit k = false).
  { intros k g. apply letter_key_head. now right. }
  rewrite (no_hit_at_digit consonants 2 C) by lia.
  rewrite (no_hit_at_digit consonants 1 C) by lia.
  rewrite (no_hit_at_digit vowels 1 V) by lia.
  replace (charAt word i) with [d] by (unfold charAt; now rewrite d_at_i).
  rewrite hit_digit.
  destruct (i + 2 <? length word), (i + 1 <? length word); reflexivity.
Qed.

End Digits.

(** X6: numerals convert digit by digit regardless of the surrounding
    letters: in every word, the scan stands at each ASCII digit, appends
    the Bengali digit of the same value (U+09E6 to U+09EF) and advances by
    one unit, and the output holds that digit at that point. *)
Theorem digits_convert (pre post : jsstring) (d : N) :
  isDigit d = true ->
  let word := pre ++ d :: post in
  exists n r r',
    loop n word ([], 0) = (r, length pre) /\
    step word (r, length pre) = (r ++ [bengaliDigit d], length pre + 1) /\
    convertWord word = r ++ [bengaliDigit d] ++ r'.
Proof.
  intros D word.
  assert (A : nth_error word (length pre) = Some d).
  { unfold word. rewrite nth_error_app2 by lia. now rewrite Nat.sub_diag. }
  assert (T : noKeyTail d = true).
  { unfold isDigit in D. apply andb_true_iff in D.
    destruct D as [L H]. apply N.leb_le in L, H.
    assert (C : (d = 48 \/ d = 49 \/ d = 50 \/ d = 51 \/ d = 52 \/
                 d = 53 \/ d = 54 \/ d = 55 \/ d = 56 \/ d = 57)%N) by lia.
    repeat (destruct C as [-> | C]; [vm_compute; reflexivity|]).
    subst d. vm_compute. reflexivity. }
  destruct (scan_reaches word (length pre) d A T (length pre) ([], 0))
    as (n & r & E); cbn [snd]; try lia.
  pose proof (step_digit word (length pre) d A D r) as S.
  assert (L : length pre < length word).
  { unfold word. rewrite length_app. simpl. lia. }
  destruct (convertWord_through word n r [bengaliDigit d] _ _ E L S)
    as [r' R].
  exists n, r, r'. auto.
Qed.

(** X6 at ["a1b"]. *)
Lemma digits_convert_witness :
  exists n r r',
    loop n (js "a1b") ([], 0) = (r, 1) /\
    step (js "a1b") (r, 1) = (r ++ js "১", 2) /\
    convertWord (js "a1b") = r ++ js "১" ++ r'.
Proof.
  apply (digits_convert (js "a") (js "b") (N_of_ascii "1")). reflexivity.
Defined.

(** ** Converting an output again *)

Section Settled.

Lemma settledFrom_app (prev : option N) (r g : jsstring) :
  settledFrom prev (r ++ g)
  = settledFrom prev r && settledFrom (lastUnit prev r) g.
Proof.
  revert prev. induction r as [|u r IH]; intros prev; simpl.
  - reflexivity.
  - rewrite IH. unfold lastUnit. simpl. now rewrite andb_assoc.
Qed.

Lemma lastUnit_charAt (prev : option N) (r : jsstring) :
  r <> [] ->
  exists x, lastUnit prev r = Some x /\ charAt r (length r - 1) = [x].
Proof.
  revert prev. induction r as [|u r IH]; intros prev H; [contradiction|].
  destruct r as [|v r'].
  - exists u. split; reflexivity.
  - destruct (IH (Some u) ltac:(discriminate)) as (x & L & C).
    exists x. split; [exact L|].
    unfold charAt in *. simpl length in *.
    replace (S (S (length r')) - 1) with (S (S (length r') - 1)) by lia.
    exact C.
Qed.

Lemma settledFrom_no_key (prev : option N) (g : jsstring) :
  forallb (fun u => negb (isUnitKey u)) g = true -> settledFrom prev g = true.
Proof.
  revert prev. induction g as [|u g IH]; intros prev H; [reflexivity|].
  simpl in H |- *. apply andb_true_iff in H. destruct H as [H1 H2].
  apply negb_true_iff in H1. rewrite H1. simpl. now apply IH.
Qed.

Lemma glyph_no_unit_key (g : jsstring) :
  In g tableGlyphs -> forallb (fun u => negb (isUnitKey u)) g = true.
Proof.
  assert (F : forallb (forallb (fun u => negb (isUnitKey u))) tableGlyphs
              = true) by (vm_compute; reflexivity).
  rewrite forallb_forall in F. apply F.
Qed.

Lemma isUnitKey_spec (u : N) : isUnitKey u = true <-> In [u] engineKeys.
Proof.
  unfold isUnitKey. destruct (in_dec jsstring_eq_dec [u] engineKeys);
    split; auto; discriminate.
Qed.

(** The output of an iteration is settled when [result] was. *)
Lemma step_settled (word result : jsstring) (i : nat) :
  settled result = true -> settled (fst (step word (result, i))) = true.
Proof.
  intros H. unfold settled in *.
  destruct (step_classify word result i)
    as (g & n & -> & _ & [[G _] | [(_ & -> & NK) | (_ & -> & V & NE & K)]]);
    cbn [fst]; rewrite settledFrom_app, H; simpl.
  - apply settledFrom_no_key, glyph_no_unit_key, G.
  - pose proof (substring_length word i 1) as L.
    destruct (substring word i (i + 1)) as [|u [|v t]]; [reflexivity| |simpl in L; lia].
    simpl. destruct (isUnitKey u) eqn:U; [|reflexivity].
    apply isUnitKey_spec in U. contradiction.
  - pose proof (substring_length word i 1) as L.
    pose proof (vowel_key_head _ V) as VL.
    destruct (substring word i (i + 1)) as [|u [|v t]];
      [discriminate| |simpl in L; lia].
    simpl in VL |- *. rewrite VL.
    destruct (lastUnit_charAt None result NE) as (x & -> & C).
    rewrite C in K. rewrite K. now destruct (isUnitKey u).
Qed.

Lemma convertWord_settled (word : jsstring) : settled (convertWord word) = true.
Proof.
  rewrite convertWord_loop.
  apply (loop_invariant word (fun st => settled (fst st) = true));
    [|reflexivity].
  intros [r i] _ H. now apply step_settled.
Qed.

Lemma settledFrom_at (s : jsstring) :
  forall prev j u,
    settledFrom prev s = true -> nth_error s j = Some u ->
    isUnitKey u = true ->
    isVowelLetter u = true /\
    exists p, match j with
              | 0 => prev = Some p
              | S j' => nth_error s j' = Some p
              end /\ kars_has [p] = true.
Proof.
  induction s as [|a s IH]; intros prev j u H E U; [destruct j; discriminate|].
  simpl in H. apply andb_true_iff in H. destruct H as [H1 H2].
  destruct j as [|j]; simpl in E.
  - injection E as ->. rewrite U in H1.
    apply andb_true_iff in H1. destruct H1 as [V K]. split; [exact V|].
    destruct prev as [p|]; [|discriminate]. now exists p.
  - destruct (IH (Some a) j u H2 E U) as (V & p & P & K).
    split; [exact V|]. exists p. split; [|exact K].
    destruct j as [|j']; [now injection P as ->|exact P].
Qed.

Lemma prefixb_two (a b : N) (t s : jsstring) (i : nat) :
  prefixb (a :: b :: t) (skipn i s) = true ->
  nth_error s i = Some a /\ nth_error s (S i) = Some b.
Proof.
  revert i. induction s as [|c s IH]; intros i H.
  - rewrite skipn_nil in H. discriminate.
  - destruct i as [|i].
    + simpl in H. apply andb_true_iff in H. destruct H as [A H].
      apply N.eqb_eq in A. subst c. destruct s as [|c' s']; [discriminate|].
      apply andb_true_iff in H. destruct H as [B _].
      apply N.eqb_eq in B. now subst c'.
    + simpl in H |- *. apply IH, H.
Qed.

(** In a settled string no key of two or three units starts anywhere. *)
Lemma settled_no_long_key (s k : jsstring) (i : nat) :
  settled s = true -> In k engineKeys -> 2 <= length k ->
  prefixb k (skipn i s) = false.
Proof.
  intros H K L.
  destruct (prefixb k (skipn i s)) eqn:P; [exfalso|reflexivity].
  assert (F : forallb (fun k => match k with
                                | a :: b :: _ =>
                                    isUnitKey b && negb (kars_has [a])
                                | _ => true
                                end) engineKeys = true)
    by (vm_compute; reflexivity).
  rewrite forallb_forall in F. specialize (F k K).
  destruct k as [|a [|b t]]; simpl in L; try lia.
  apply andb_true_iff in F. destruct F as [U NK].
  apply prefixb_two in P. destruct P as [A B].
  destruct (settledFrom_at s None (S i) b H B U) as (_ & p & P & KP).
  rewrite A in P. injection P as <-. now rewrite KP in NK.
Qed.

Lemma settled_no_long_hit (s : jsstring) (o : ConversionMap) (i n : nat) :
  settled s = true -> incl (map fst o) engineKeys ->
  2 <= n <= 3 -> i + n <= length s ->
  hit o (substring s i (i + n)) = None.
Proof.
  intros H HI Hn L.
  destruct (hit o (substring s i (i + n))) as [g|] eqn:E; [|reflexivity].
  apply hit_engineKeys in E; [|exact HI|lia].
  pose proof (settled_no_long_key s _ i H E) as P.
  rewrite substring_full_length in P by exact L.
  unfold substring in P. rewrite prefixb_firstn in P.
  specialize (P ltac:(lia)). discriminate.
Qed.

(** The guard: a vowel letter behind a kar is copied. *)
Lemma step_behind_kar (word result : jsstring) (i : nat) (c : N) :
  nth_error word i = Some c -> isVowelLetter c = true ->
  (i + 1 < length word -> hit vowels (substring word i (i + 2)) = None) ->
  result <> [] -> i <> 0 ->
  kars_has (charAt result (length result - 1)) = true ->
  step word (result, i) = (result ++ [c], i + 1).
Proof.
  intros Hc V H2 Hr Hi K.
  unfold step. cbv zeta.
  rewrite (charAt_unit word i c Hc).
  pose proof (no_hit_at_vowel_letter word i c Hc V) as NH.
  rewrite (NH consonants 2 consonant_key_head) by lia.
  rewrite (NH consonants 1 consonant_key_head) by lia.
  pose proof (NH consonants 0 consonant_key_head ltac:(lia)) as C1.
  pose proof (NH numbers 0 number_key_head ltac:(lia)) as N1.
  rewrite <- charAt_substring, (charAt_unit word i c Hc) in C1, N1.
  rewrite C1, N1.
  destruct (vowel_letter_key c V) as [kar ->].
  replace (isEmpty result || (i =? 0)) with false.
  2:{ symmetry. apply orb_false_iff. split.
      - destruct result; [contradiction|reflexivity].
      - now apply Nat.eqb_neq. }
  rewrite K. cbn [negb].
  assert (T : (if i + 2 <? length word then @None jsstring else None) = None)
    by (destruct (i + 2 <? length word); reflexivity).
  rewrite T. clear T.
  destruct (Nat.ltb_spec (i + 1) (length word)) as [L|L];
    [rewrite (H2 L)|]; reflexivity.
Qed.

Lemma settled_step (s : jsstring) (i : nat) :
  settled s = true -> i < length s ->
  step s (firstn i s, i) = (firstn (i + 1) s, i + 1).
Proof.
  intros H L.
  destruct (nth_error s i) as [u|] eqn:E;
    [|apply nth_error_None in E; lia].
  rewrite <- firstn_succ_charAt, (charAt_unit s i u E).
  destruct (isUnitKey u) eqn:U.
  - destruct (settledFrom_at s None i u H E U) as (V & p & P & K).
    destruct i as [|j]; [discriminate|].
    apply step_behind_kar; auto.
    + intros L2. apply settled_no_long_hit; auto using engineKeys_vowels; lia.
    + destruct s; [simpl in L; lia|discriminate].
    + rewrite length_firstn, Nat.min_l by lia.
      unfold charAt. replace (S j - 1) with j by lia.
      rewrite nth_error_firstn.
      destruct (Nat.ltb_spec j (S j)); [|lia]. now rewrite P.
  - rewrite <- (charAt_unit s i u E). apply step_unmatched.
    unfold matchesAt.
    destruct (existsb (fun k => prefixb k (skipn i s)) engineKeys) eqn:X;
      [exfalso|reflexivity].
    apply existsb_exists in X. destruct X as (k & K & P).
    destruct k as [|a [|b t]].
    + revert K. vm_compute. intuition discriminate.
    + assert (a = u).
      { apply nth_error_split in E. destruct E as (l1 & l2 & -> & <-).
        rewrite skipn_app, Nat.sub_diag, skipn_all in P. simpl in P.
        apply andb_true_iff in P. destruct P as [P _].
        now apply N.eqb_eq in P. }
      subst a. apply isUnitKey_spec in K. congruence.
    + rewrite (settled_no_long_key s _ i H K) in P by (simpl; lia).
      discriminate.
Qed.

Lemma settled_loop (s : jsstring) :
  settled s = true ->
  forall n i, i + n <= length s ->
  loop n s (firstn i s, i) = (firstn (i + n) s, i + n).
Proof.
  intros H. induction n as [|n IH]; intros i L.
  - now rewrite Nat.add_0_r.
  - rewrite loop_S. cbn [snd].
    destruct (Nat.ltb_spec i (length s)) as [Li|]; [|lia].
    rewrite (settled_step s i H Li), IH by lia.
    now replace (i + 1 + n) with (i + S n) by lia.
Qed.

Lemma convertWord_of_settled (s : jsstring) :
  settled s = true -> convertWord s = s.
Proof.
  intros H. rewrite convertWord_loop.
  change ([], 0) with (firstn 0 s, 0).
  rewrite (settled_loop s H) by lia. simpl. apply firstn_all.
Qed.

End Settled.

(** X7: [convertWord] is idempotent: converting its output again changes
    nothing.  (Bengali units are no keys, and a Latin vowel letter that the
    guard left behind a kar is left there again.) *)
Theorem convertWord_idempotent (word : jsstring) :
  convertWord (convertWord word) = convertWord word.
Proof.
  pose proof (convertWord_settled word) as H.
  exact (convertWord_of_settled (convertWord word) H).
Qed.

Section FieldsAgain.

Lemma lowerUnit_ascii (u : N) :
  forallb (fun c => (c <? 128)%N) (lowerUnit u) = true ->
  asciiOrKelvin u = true.
Proof.
  unfold lowerUnit, asciiOrKelvin.
  destruct ((65 <=? u)%N && (u <=? 90)%N) eqn:Up.
  - intros _. apply andb_true_iff in Up. destruct Up as [_ H].
    apply N.leb_le in H. apply orb_true_iff. left. apply N.ltb_lt. lia.
  - destruct (N.eqb_spec u 0x212A) as [->|_]; [reflexivity|].
    destruct (N.eqb_spec u 0x130) as [->|_]; [discriminate|].
    simpl. rewrite andb_true_r. intros ->. reflexivity.
Qed.

Lemma toLowerCase_ascii_units (s : jsstring) :
  forallb (fun c => (c <? 128)%N) (toLowerCase s) = true ->
  forallb asciiOrKelvin s = true.
Proof.
  unfold toLowerCase. induction s as [|u s IH]; [reflexivity|].
  simpl. rewrite forallb_app. intros H.
  apply andb_true_iff in H. destruct H as [H1 H2].
  now rewrite (lowerUnit_ascii u H1), (IH H2).
Qed.

Lemma kar_not_ascii (p : N) :
  kars_has [p] = true -> asciiOrKelvin p = false.
Proof.
  unfold kars_has. destruct (in_dec jsstring_eq_dec [p] kars) as [I|];
    [|discriminate].
  intros _. vm_compute in I.
  repeat (destruct I as [I|I]; [injection I as <-; reflexivity|]).
  contradiction.
Qed.

Lemma settled_ascii_no_key (s : jsstring) (u : N) :
  settled s = true -> forallb asciiOrKelvin s = true ->
  In u s -> isUnitKey u = false.
Proof.
  intros H A I. destruct (isUnitKey u) eqn:U; [exfalso|reflexivity].
  apply In_nth_error in I. destruct I as [j E].
  destruct (settledFrom_at s None j u H E U) as (_ & p & P & K).
  destruct j as [|j']; [discriminate|].
  apply nth_error_In in P. rewrite forallb_forall in A.
  specialize (A p P). rewrite (kar_not_ascii p K) in A. discriminate.
Qed.

Lemma names_ascii (k : jsstring) :
  In k (map fst commonWords ++ inheritedNames) ->
  forallb (fun c => (c <? 128)%N) k = true.
Proof.
  assert (F : forallb (forallb (fun c => (c <? 128)%N))
                      (map fst commonWords ++ inheritedNames) = true)
    by (vm_compute; reflexivity).
  rewrite forallb_forall in F. apply F.
Qed.

(** An output of [convertWord] never lower-cases to an inherited name. *)
Lemma settled_not_inherited (s : jsstring) :
  settled s = true -> inherited (toLowerCase s) = None.
Proof.
  intros H. destruct (inherited (toLowerCase s)) as [v|] eqn:E;
    [exfalso|reflexivity].
  pose proof (inherited_name _ _ E) as NI.
  assert (A : forallb asciiOrKelvin s = true).
  { apply toLowerCase_ascii_units, names_ascii, in_or_app. now right. }
  apply inherited_name_letter in E. destruct E as (c & I & Hc).
  unfold toLowerCase in I. apply in_flat_map in I.
  destruct I as (u & Iu & Ic).
  pose proof (lowerUnit_key u c Ic Hc) as K. apply isUnitKey_spec in K.
  rewrite (settled_ascii_no_key s u H A Iu) in K. discriminate.
Qed.

Lemma glyph_units_not_plain (g : jsstring) :
  In g tableGlyphs -> g <> [] /\ forallb plain g = false.
Proof.
  intros I.
  assert (F : forallb (fun g => negb (isEmpty g)
                                && forallb (fun u => negb (plain u)) g)
                      tableGlyphs = true) by (vm_compute; reflexivity).
  rewrite forallb_forall in F. specialize (F g I).
  apply andb_true_iff in F. destruct F as [F1 F2].
  destruct g as [|u g]; [discriminate|]. split; [discriminate|].
  simpl in F2 |- *. apply andb_true_iff in F2. destruct F2 as [F2 _].
  apply negb_true_iff in F2. now rewrite F2.
Qed.

(** An output made of plain units only is the word itself. *)
Lemma convertWord_plain (word : jsstring) :
  forallb plain (convertWord word) = true -> convertWord word = word.
Proof.
  rewrite convertWord_loop.
  pose (P := fun st : state =>
               forallb plain (fst st) = true -> fst st = firstn (snd st) word).
  assert (I : P (loop (length word) word ([], 0))).
  { apply (loop_invariant word P); [|intros _; reflexivity].
    intros [r i] L H. unfold P in *. cbn [fst snd] in *.
    destruct (step_classify word r i)
      as (g & n & -> & _ & [[G _] | [(-> & -> & _) | (-> & -> & V & _)]]);
      cbn [fst snd]; rewrite forallb_app; intros X;
      apply andb_true_iff in X; destruct X as [X1 X2].
    - destruct (glyph_units_not_plain g G) as [_ NP]. congruence.
    - rewrite firstn_add_substring. now rewrite (H X1).
    - exfalso. pose proof (substring_length word i 1) as Ln.
      pose proof (vowel_key_head _ V) as VL.
      destruct (substring word i (i + 1)) as [|u [|v t]];
        [discriminate VL| |simpl in Ln; lia].
      simpl in X2. rewrite andb_true_r in X2. unfold plain in X2.
      apply andb_true_iff in X2. destruct X2 as [X2 _].
      apply negb_true_iff in X2.
      assert (K : isUnitKey u = true).
      { apply isUnitKey_spec, engineKeys_vowels, V. }
      congruence. }
  intros X. unfold P in I. rewrite (I X), loop_end. apply firstn_all.
Qed.

Lemma ascii_not_glyph_unit (u : N) :
  asciiOrKelvin u = true -> existsb (N.eqb u) (concat tableGlyphs) = false.
Proof.
  intros A. destruct (existsb (N.eqb u) (concat tableGlyphs)) eqn:E;
    [exfalso|reflexivity].
  apply existsb_exists in E. destruct E as (x & I & X).
  apply N.eqb_eq in X. subst x.
  assert (F : forallb (fun u => negb (asciiOrKelvin u)) (concat tableGlyphs)
              = true) by (vm_compute; reflexivity).
  rewrite forallb_forall in F. specialize (F u I). now rewrite A in F.
Qed.

(** An output of [convertWord] lower-cases to a dictionary key only if the
    word did. *)
Lemma output_not_dictionary (word : jsstring) :
  own commonWords (toLowerCase word) = None ->
  own commonWords (toLowerCase (convertWord word)) = None.
Proof.
  intros D.
  destruct (own commonWords (toLowerCase (convertWord word))) as [v|] eqn:E;
    [exfalso|reflexivity].
  assert (A : forallb asciiOrKelvin (convertWord word) = true).
  { apply toLowerCase_ascii_units, names_ascii, in_or_app. left.
    apply own_In in E. apply (in_map fst) in E. exact E. }
  assert (X : forallb plain (convertWord word) = true).
  { apply forallb_forall. intros u I. unfold plain.
    rewrite (settled_ascii_no_key _ u (convertWord_settled word) A I).
    rewrite forallb_forall in A.
    now rewrite (ascii_not_glyph_unit u (A u I)). }
  apply convertWord_plain in X. rewrite X in E. congruence.
Qed.

Lemma dictionary_value_fixed (k v : jsstring) :
  own commonWords k = Some v ->
  inherited (toLowerCase v) = None /\ convertField v = v.
Proof.
  intros H.
  pose (p := fun (_ v : jsstring) =>
               match inherited (toLowerCase v) with
               | None => if jsstring_eq_dec (convertField v) v
                         then true else false
               | Some _ => false
               end).
  assert (F : forallb (fun kv => p (fst kv) (snd kv)) commonWords = true)
    by (vm_compute; reflexivity).
  pose proof (own_forallb p commonWords F k v H) as X. unfold p in X.
  destruct (inherited (toLowerCase v)); [discriminate|].
  destruct (jsstring_eq_dec (convertField v) v); [auto|discriminate].
Qed.

(** A converted field is a fixed point of the conversion of fields. *)
Lemma convertField_fixed (w : jsstring) :
  inherited (toLowerCase (convertField w)) = None /\
  convertField (convertField w) = convertField w.
Proof.
  unfold convertField at 1 3 4.
  destruct (own commonWords (toLowerCase w)) as [v|] eqn:D.
  - eapply dictionary_value_fixed, D.
  - split.
    + apply settled_not_inherited, convertWord_settled.
    + unfold convertField. rewrite (output_not_dictionary w D).
      apply convertWord_of_settled, convertWord_settled.
Qed.

(** The conversion written field by field. *)
Lemma convert_as_fields (text : jsstring) :
  (forall w, In w (split text) -> inherited (toLowerCase w) = None) ->
  convertBanglishToBengali text
  = if isEmpty text then []
    else join (map VString (map convertField (split text))).
Proof.
  intros H. unfold convertBanglishToBengali.
  destruct (isEmpty text); [reflexivity|]. f_equal.
  rewrite map_map. apply map_ext_in. intros w I.
  unfold get, convertField. rewrite (H w I).
  destruct (own commonWords (toLowerCase w)) as [s|] eqn:D; [|reflexivity].
  now rewrite (dictionary_value_truthy _ _ D).
Qed.

End FieldsAgain.

(** X8: for every text in which no field lower-cases to a name inherited
    from [Object.prototype], converting the output of
    [convertBanglishToBengali] again changes nothing. *)
Theorem convert_idempotent (text : jsstring) :
  (forall w, In w (split text) -> inherited (toLowerCase w) = None) ->
  convertBanglishToBengali (convertBanglishToBengali text)
  = convertBanglishToBengali text.
Proof.
  intros H. rewrite (convert_as_fields text H).
  destruct (isEmpty text) eqn:Em; [reflexivity|].
  set (fs := map convertField (split text)).
  assert (NE : map VString fs <> []).
  { unfold fs. pose proof (split_nonempty text).
    destruct (split text); [contradiction|discriminate]. }
  assert (NS : Forall (fun v => noSpace (ToString v)) (map VString fs)).
  { unfold fs. rewrite map_map. apply Forall_map.
    eapply Forall_impl; [|apply split_noSpace].
    intros w. apply convertField_noSpace. }
  pose proof (split_join (map VString fs) NE NS) as S.
  rewrite map_map in S. cbn [ToString] in S. rewrite map_id in S.
  rewrite convert_as_fields.
  - destruct (isEmpty (join (map VString fs))) eqn:Ej.
    + destruct (join (map VString fs)); [reflexivity|discriminate].
    + rewrite S. f_equal. f_equal.
      rewrite <- (map_id fs) at 2. apply map_ext_in.
      intros f I. unfold fs in I. apply in_map_iff in I.
      destruct I as (w & <- & _). apply convertField_fixed.
  - rewrite S. intros f I. unfold fs in I. apply in_map_iff in I.
    destruct I as (w & <- & _). apply convertField_fixed.
Qed.

(** X8 at a text with a dictionary word, a stacked-guard word and an
    unmapped capital. *)
Lemma convert_idempotent_witness :
  convertBanglishToBengali (convertBanglishToBengali (js "Ami kai Ba 12"))
  = convertBanglishToBengali (js "Ami kai Ba 12").
Proof.
  apply (convert_idempotent (js "Ami kai Ba 12")).
  intros w I. vm_compute in I.
  repeat (destruct I as [I|I]; [subst w; reflexivity|]). contradiction.
Defined.

(** ** The real-time wrapper: last call wins *)

Section Realtime.

Lemma subseq_refl (l : list jsstring) : subseq l l.
Proof.
  induction l; [apply subseq_nil|apply subseq_keep; assumption].
Qed.

Lemma subseq_nil_l (c : list jsstring) : subseq [] c.
Proof.
  induction c; [apply subseq_nil|apply subseq_skip; assumption].
Qed.

Lemma subseq_app (l1 c1 l2 c2 : list jsstring) :
  subseq l1 c1 -> subseq l2 c2 -> subseq (l1 ++ l2) (c1 ++ c2).
Proof.
  intros H1 H2. induction H1; simpl.
  - exact H2.
  - now apply subseq_skip.
  - now apply subseq_keep.
Qed.

Lemma subseq_drop_last (l p c : list jsstring) :
  subseq (l ++ p) c -> subseq l c.
Proof.
  intros H. remember (l ++ p) as lp eqn:E. revert l p E.
  induction H as [|lp c x H IH|lp c x H IH]; intros l p E.
  - destruct l; [apply subseq_nil|discriminate].
  - apply subseq_skip. eapply IH, E.
  - destruct l as [|y l].
    + apply subseq_nil_l.
    + simpl in E. injection E as E1 E2. subst x.
      apply subseq_keep. eapply IH, E2.
Qed.

Lemma calls_app (es es' : list event) : calls (es ++ es') = calls es ++ calls es'.
Proof.
  induction es as [|[b|id] es IH]; simpl; auto. now rewrite IH.
Qed.

Lemma lastCall_call (es : list event) (b : jsstring) :
  lastCall (es ++ [Call b]) = Some b.
Proof.
  unfold lastCall. rewrite calls_app. simpl. now rewrite rev_app_distr.
Qed.

Lemma lastCall_elapse (es : list event) (id : nat) :
  lastCall (es ++ [Elapse id]) = lastCall es.
Proof.
  unfold lastCall. rewrite calls_app. simpl. now rewrite app_nil_r.
Qed.

Lemma run_snoc (es : list event) (e : event) :
  run (es ++ [e]) = handle (run es) e.
Proof. unfold run. now rewrite fold_left_app. Qed.

Lemma run_consistent (es : list event) : consistent es (run es).
Proof.
  induction es as [|e es IH] using rev_ind.
  - split; [now left|]. exists []. split; [reflexivity|constructor].
  - rewrite run_snoc. destruct IH as [T (l & D & S)].
    destruct e as [b|id]; simpl.
    + assert (C : clearTimeout (timeoutId (run es)) (timers (run es)) = []).
      { destruct T as [-> | (id & b0 & -> & -> & _)].
        - now destruct (timeoutId (run es)).
        - simpl. now rewrite Nat.eqb_refl. }
      unfold invoke. rewrite C. split; simpl.
      * right. exists (nextId (run es)), b.
        repeat split. apply lastCall_call.
      * exists l. split; [exact D|]. rewrite calls_app. simpl.
        apply subseq_app; [|apply subseq_refl].
        eapply subseq_drop_last, S.
    + unfold elapse, consistent.
      destruct T as [E | (id0 & b0 & E & Ti & LC)].
      * rewrite E. cbn [find]. rewrite E, calls_app. cbn [calls].
        rewrite app_nil_r. rewrite E in S.
        split; [now left|]. exists l. now split.
      * rewrite E in S |- *. cbn [find fst].
        destruct (Nat.eqb_spec id0 id) as [->|Hne].
        -- cbn [timers delivered filter fst negb map app].
           rewrite Nat.eqb_refl. cbn [negb map app].
           split; [now left|]. exists (l ++ [b0]).
           split; [now rewrite D, map_app|].
           rewrite calls_app. cbn [calls]. now rewrite !app_nil_r.
        -- rewrite E. split.
           ++ right. exists id0, b0. repeat split; auto.
              now rewrite lastCall_elapse.
           ++ exists l. split; [exact D|].
              rewrite calls_app. cbn [calls]. now rewrite app_nil_r.
Qed.

End Realtime.

(** X9: after every sequence of calls of the closure returned by
    [createRealtimeConverter] and of elapsing timers, at most one timer is
    pending, it is the one [timeoutId] names and it holds the text of the
    last call; the callback has received the conversions of some of the
    texts passed so far, in the order of the calls and each at most once;
    and a timer that elapses either delivers nothing (it was cancelled or
    has run) or delivers the conversion of the text of the last call. *)
Theorem realtime_last_call_wins (es : list event) :
  (timers (run es) = [] \/
   exists id b, timers (run es) = [(id, b)] /\
                timeoutId (run es) = Some id /\ lastCall es = Some b) /\
  (exists l, delivered (run es) = map convertBanglishToBengali l /\
             subseq l (calls es)) /\
  (forall id,
      delivered (run (es ++ [Elapse id])) = delivered (run es) \/
      exists b, lastCall es = Some b /\
                delivered (run (es ++ [Elapse id]))
                = delivered (run es) ++ [convertBanglishToBengali b]).
Proof.
  destruct (run_consistent es) as [T (l & D & S)].
  split; [exact T|]. split.
  - exists l. split; [exact D|]. eapply subseq_drop_last, S.
  - intros id. rewrite run_snoc. simpl. unfold elapse.
    destruct T as [E | (id0 & b0 & E & _ & LC)]; rewrite E; simpl.
    + now left.
    + destruct (id0 =? id); simpl; [|now left].
      right. exists b0. now split.
Qed.

Example realtime_burst :
  delivered (run [Call (js "a"); Call (js "am"); Call (js "ami");
                  Elapse 0; Elapse 2; Elapse 1])
  = [js "আমি"].
Proof. vm_compute. reflexivity. Qed.

(** ** What the output is made of *)

(** X10: in the output of [convertWord], a unit that alone is a key of the
    consonant, vowel or numeral table is a Latin vowel letter that stands
    directly behind a kar: no digit and no mapped consonant letter is ever
    left in the output, and no mapped letter begins it. *)
Theorem output_keys_guarded (word : jsstring) (j : nat) (u : N) :
  nth_error (convertWord word) j = Some u -> In [u] engineKeys ->
  isVowelLetter u = true /\
  exists j' p, j = S j' /\ nth_error (convertWord word) j' = Some p /\
               In [p] kars.
Proof.
  intros E K. apply isUnitKey_spec in K.
  destruct (settledFrom_at (convertWord word) None j u
              (convertWord_settled word) E K) as (V & p & P & KP).
  split; [exact V|]. destruct j as [|j']; [discriminate|].
  exists j', p. repeat split; [exact P|].
  unfold kars_has in KP.
  now destruct (in_dec jsstring_eq_dec [p] kars).
Qed.

(** X10 at ["kai"], whose output ends in the Latin letter [i]. *)
Lemma output_keys_guarded_witness :
  isVowelLetter (N_of_ascii "i") = true /\
  exists j' p, 2 = S j' /\ nth_error (convertWord (js "kai")) j' = Some p /\
               In [p] kars.
Proof.
  apply (output_keys_guarded (js "kai") 2 (N_of_ascii "i")).
  - reflexivity.
  - vm_compute. tauto.
Defined.

(** X11: every unit of the output of [convertWord] is a unit of the word
    or lies in the Bengali block U+0980 to U+09FF: the engine introduces
    nothing but Bengali script. *)
Theorem output_units (word : jsstring) (u : N) :
  In u (convertWord word) ->
  In u word \/ (0x980 <= u <= 0x9FF)%N.
Proof.
  pose (Q := fun c : N => In c word \/ (0x980 <= c <= 0x9FF)%N).
  assert (F : Forall Q (convertWord word)).
  { apply convertWord_Forall.
    - intros g I.
      assert (B : forallb (forallb (fun c => (0x980 <=? c) && (c <=? 0x9FF))%N)
                          tableGlyphs = true) by (vm_compute; reflexivity).
      rewrite forallb_forall in B. specialize (B g I).
      rewrite forallb_forall in B. apply Forall_forall. intros c Ic.
      specialize (B c Ic). apply andb_true_iff in B. destruct B as [B1 B2].
      apply N.leb_le in B1, B2. right. lia.
    - apply Forall_forall. intros c Ic. now left. }
  rewrite Forall_forall in F. intros I. apply (F u I).
Qed.

(** X11 at the first unit of the output of ["ka!"]. *)
Lemma output_units_witness :
  In 0x995%N (js "ka!") \/ (0x980 <= 0x995 <= 0x9FF)%N.
Proof.
  apply (output_units (js "ka!") 0x995%N). vm_compute. tauto.
Defined.
